(** * Integrity audit of funnels and offer mappings

    A shallow embedding of [scripts/analyze_funnels_offers.py]: the
    normaliser [normalize], the analysis performed by [main] over the two
    row collections produced by [read_csv], and the report document that
    [main] hands to [json.dumps].

    Modelling conventions.
    - A Python [str] is a Rocq [string] whose characters are code points
      below 256 (Latin-1, which covers the Portuguese text of the two
      datasets).  [str.isspace], [str.lower] and the regular expression
      class [\s] are the restrictions of the Python ones to that range.
      Module [Wide] has the same functions on lists of arbitrary code
      points; the two agree below 256 ([wide_normalize_code_points]), and
      [Wide] shows what [normalize] does beyond.
    - A cell of a [csv.DictReader] row is a [str] or [None] (the [restval]
      of a short row), so a value is an [option string] and a row is a
      finite map from column names to values.
    - A [dict] whose iteration order is observed ([defaultdict(list)],
      [Counter]) is an association list in insertion order.
    - [KeyError] and [IndexError] are [None] in the option monad. *)

From Stdlib Require Import NArith Ascii String.
From stdpp Require Import base option list sorting gmap strings.

Local Open Scope string_scope.
Local Open Scope list_scope.
Local Open Scope nat_scope.

(** ** Python strings

    Below 256 [str.lower] works character by character.  (Beyond that
    range it does not, e.g. on the Greek final sigma; such strings are
    outside this development.) *)

Module Str.

(** [str.isspace] on one code point, which is also the class [\s] of
    [re] on [str] patterns: TAB..CR, FS..US, SPACE, NEL and NBSP. *)
Definition isspace (c : ascii) : bool :=
  let n := N_of_ascii c in
  ((9 <=? n) && (n <=? 13) || (28 <=? n) && (n <=? 32)
   || (n =? 133) || (n =? 160))%N.

(** [str.lower] on one code point: A..Z and the Latin-1 capitals
    (all of 192..222 but the multiplication sign 215) move up by 32. *)
Definition lower_char (c : ascii) : ascii :=
  let n := N_of_ascii c in
  if ((65 <=? n) && (n <=? 90)
      || (192 <=? n) && (n <=? 222) && negb (n =? 215))%N
  then ascii_of_N (n + 32) else c.

Definition lower (s : list ascii) : list ascii := lower_char <$> s.

Fixpoint lstrip (s : list ascii) : list ascii :=
  match s with
  | [] => []
  | c :: t => if isspace c then lstrip t else s
  end.

Fixpoint rstrip (s : list ascii) : list ascii :=
  match s with
  | [] => []
  | c :: t =>
      match rstrip t with
      | [] => if isspace c then [] else [c]
      | t' => c :: t'
      end
  end.

(** [s.strip()] *)
Definition strip (s : list ascii) : list ascii := rstrip (lstrip s).

(** [re.sub(r"\s+", " ", s)]: scanning left to right, every maximal run
    of whitespace is replaced by one space.  [in_run] tells that the
    previous character belonged to the run being replaced. *)
Fixpoint sub_spaces_from (in_run : bool) (s : list ascii) : list ascii :=
  match s with
  | [] => []
  | c :: t =>
      if isspace c
      then (if in_run then sub_spaces_from true t
            else " "%char :: sub_spaces_from true t)
      else c :: sub_spaces_from false t
  end.

Definition sub_spaces : list ascii → list ascii := sub_spaces_from false.

End Str.

(** A Python value held in a row: a [str], or [None]. *)
Abbreviation value := (option string).

(** [value or ""] *)
Definition or_empty (v : value) : string := default "" v.

(** [normalize(value)]:
    [re.sub(r"\s+", " ", (value or "").strip().lower())] *)
Definition normalize_chars (s : list ascii) : list ascii :=
  Str.sub_spaces (Str.lower (Str.strip s)).

Definition normalize (v : value) : string :=
  string_of_list_ascii (normalize_chars (list_ascii_of_string (or_empty v))).


(** Two strings that differ only in letter case or in the lengths of
    their whitespace runs: one step changes the case of one character or
    removes one of two adjacent whitespace characters; the relation is the
    equivalence these steps generate. *)
Inductive cosmetic_step : list ascii → list ascii → Prop :=
  | step_case p c d s :
      Str.lower_char c = Str.lower_char d →
      cosmetic_step (p ++ c :: s) (p ++ d :: s)
  | step_run_l p w w' s :
      Str.isspace w = true → Str.isspace w' = true →
      cosmetic_step (p ++ w :: w' :: s) (p ++ w :: s)
  | step_run_r p w w' s :
      Str.isspace w = true → Str.isspace w' = true →
      cosmetic_step (p ++ w :: w' :: s) (p ++ w' :: s).

Definition differ_only_in_case_or_space_runs (x y : string) : Prop :=
  rtsc cosmetic_step (list_ascii_of_string x) (list_ascii_of_string y).

(** A one-pass reading of [normalize_chars], used to reason about it: the
    scanner remembers whether it has not yet met a word, is inside a word,
    or has met whitespace after a word (a space is then owed, and paid
    when the next word starts). *)
Inductive scan_state := AtStart | InWord | AfterSpace.

Definition after_space (st : scan_state) : scan_state :=
  match st with AtStart => AtStart | _ => AfterSpace end.

Fixpoint scan (st : scan_state) (s : list ascii) : list ascii :=
  match s with
  | [] => []
  | c :: t =>
      if Str.isspace c then scan (after_space st) t
      else match st with
           | AfterSpace => " "%char :: Str.lower_char c :: scan InWord t
           | _ => Str.lower_char c :: scan InWord t
           end
  end.

(** ** Python strings beyond Latin-1

    The same functions on strings of arbitrary code points.  [str.isspace]
    is tabulated in full.  [str.lower] is tabulated for the code points
    below 256, the Greek letters U+0391..U+03A9 and U+03B1..U+03C9, the
    dotted capital I (U+0130), the combining dot above (U+0307) and the
    whitespace code points; on a
    string with any other code point [lower] answers [None], which stands
    for "not tabulated here", never for a result of Python.  Within the
    table two things happen that do not happen below 256: the capital
    sigma is lower-cased by its context (final sigma), and the dotted
    capital I becomes two code points. *)

Module Wide.

(** [str.isspace], the class [\s]. *)
Definition isspace (c : N) : bool :=
  ((9 <=? c) && (c <=? 13) || (28 <=? c) && (c <=? 32)
   || (c =? 133) || (c =? 160) || (c =? 0x1680)
   || (0x2000 <=? c) && (c <=? 0x200A)
   || (c =? 0x2028) || (c =? 0x2029) || (c =? 0x202F) || (c =? 0x205F)
   || (c =? 0x3000))%N.

(** The property Case_Ignorable, on the tabulated code points. *)
Definition case_ignorable (c : N) : bool :=
  ((c =? 0x27) || (c =? 0x2E) || (c =? 0x3A) || (c =? 0x5E) || (c =? 0x60)
   || (c =? 0xA8) || (c =? 0xAD) || (c =? 0xAF) || (c =? 0xB4) || (c =? 0xB7)
   || (c =? 0xB8) || (c =? 0x307))%N.

(** The property Cased, on the tabulated code points. *)
Definition cased (c : N) : bool :=
  ((0x41 <=? c) && (c <=? 0x5A) || (0x61 <=? c) && (c <=? 0x7A)
   || (c =? 0xAA) || (c =? 0xB5) || (c =? 0xBA)
   || (0xC0 <=? c) && (c <=? 0xD6) || (0xD8 <=? c) && (c <=? 0xF6)
   || (0xF8 <=? c) && (c <=? 0xFF) || (c =? 0x130)
   || (0x391 <=? c) && (c <=? 0x3A1) || (0x3A3 <=? c) && (c <=? 0x3A9)
   || (0x3B1 <=? c) && (c <=? 0x3C9))%N.

(** After any case-ignorable code points comes a cased one. *)
Fixpoint followed_by_cased (s : list N) : bool :=
  match s with
  | [] => false
  | c :: t => if case_ignorable c then followed_by_cased t else cased c
  end.

(** The lower case of the code point [c] that stands before [rest];
    [after_cased] tells that, case-ignorable code points apart, the code
    point before [c] is cased.  A capital sigma in that position and not
    followed by a cased code point is a final sigma. *)
Definition lower_code_point (after_cased : bool) (rest : list N) (c : N)
  : option (list N) :=
  if (c =? 0x3A3)%N then
    Some [if after_cased && negb (followed_by_cased rest)
          then 0x3C2%N else 0x3C3%N]
  else if (c =? 0x130)%N then Some [0x69%N; 0x307%N]
  else if (c <? 256)%N then
    Some [if ((65 <=? c) && (c <=? 90)
              || (192 <=? c) && (c <=? 222) && negb (c =? 215))%N
          then (c + 32)%N else c]
  else if ((0x391 <=? c) && (c <=? 0x3A1)
           || (0x3A4 <=? c) && (c <=? 0x3A9))%N then Some [(c + 32)%N]
  else if ((0x3B1 <=? c) && (c <=? 0x3C9) || (c =? 0x307))%N
          || isspace c then Some [c]
  else None.

Fixpoint lower_from (after_cased : bool) (s : list N) : option (list N) :=
  match s with
  | [] => Some []
  | c :: t =>
      out ← lower_code_point after_cased t c;
      rest ← lower_from (if case_ignorable c then after_cased else cased c) t;
      Some (out ++ rest)
  end.

(** [s.lower()] *)
Definition lower : list N → option (list N) := lower_from false.

Fixpoint lstrip (s : list N) : list N :=
  match s with
  | [] => []
  | c :: t => if isspace c then lstrip t else s
  end.

Fixpoint rstrip (s : list N) : list N :=
  match s with
  | [] => []
  | c :: t =>
      match rstrip t with
      | [] => if isspace c then [] else [c]
      | t' => c :: t'
      end
  end.

(** [s.strip()] *)
Definition strip (s : list N) : list N := rstrip (lstrip s).

(** [re.sub(r"\s+", " ", s)] *)
Fixpoint sub_spaces_from (in_run : bool) (s : list N) : list N :=
  match s with
  | [] => []
  | c :: t =>
      if isspace c
      then (if in_run then sub_spaces_from true t
            else 32%N :: sub_spaces_from true t)
      else c :: sub_spaces_from false t
  end.

Definition sub_spaces : list N → list N := sub_spaces_from false.

(** [normalize(value)] *)
Definition normalize (value : option (list N)) : option (list N) :=
  sub_spaces <$> lower (strip (default [] value)).

(** One step between two strings that differ only in letter case or in
    the lengths of their whitespace runs, as [cosmetic_step] below 256:
    two code points are case variants when they have the same lower
    case. *)
Inductive cosmetic_step : list N → list N → Prop :=
  | step_case p c d s :
      is_Some (lower [c]) → lower [c] = lower [d] →
      cosmetic_step (p ++ c :: s) (p ++ d :: s)
  | step_run_l p w w' s :
      isspace w = true → isspace w' = true →
      cosmetic_step (p ++ w :: w' :: s) (p ++ w :: s)
  | step_run_r p w w' s :
      isspace w = true → isspace w' = true →
      cosmetic_step (p ++ w :: w' :: s) (p ++ w' :: s).

Definition differ_only_in_case_or_space_runs (x y : list N) : Prop :=
  rtsc cosmetic_step x y.

End Wide.

(** The code points of a string of the first model. *)
Definition code_points (s : string) : list N :=
  N_of_ascii <$> list_ascii_of_string s.

(** ** Rows and dictionaries *)

(** A row of [csv.DictReader]: column name to cell.  (The key [None] that
    collects the surplus cells of a long row is never read by [main] and
    is left out.) *)
Abbreviation row := (gmap string value).

(** Truthiness of a value: [None] and the empty string are false. *)
Definition truthy (v : value) : Prop :=
  match v with Some s => s ≠ "" | None => False end.

Global Instance truthy_dec v : Decision (truthy v).
Proof. destruct v; apply _. Defined.

(** [row.get(key)] *)
Definition get (r : row) (key : string) : value := r !! key ≫= id.

(** [row.get(key, "")] *)
Definition get_default (r : row) (key : string) (d : string) : value :=
  default (Some d) (r !! key).

(** [row[key]]; [None] is [KeyError]. *)
Definition getitem (r : row) (key : string) : option value := r !! key.

(** [v or d] *)
Definition value_or (v : value) (d : string) : string :=
  match v with
  | Some s => if decide (s = "") then d else s
  | None => d
  end.

(** A comprehension [[x for x in l if p(x)]] whose condition can raise. *)
Fixpoint filterM {A} (p : A → option bool) (l : list A) : option (list A) :=
  match l with
  | [] => Some []
  | x :: l => b ← p x; l' ← filterM p l; Some (if b : bool then x :: l' else l')
  end.

Section ordered_dict.
Context {K V : Type} `{EqDecision K}.

(** [d[k] = f(d.get(k))] on a dictionary kept in insertion order: a key
    already present keeps its place, a new key goes to the end. *)
Fixpoint dict_update (f : option V → V) (k : K) (d : list (K * V))
  : list (K * V) :=
  match d with
  | [] => [(k, f None)]
  | (k', v) :: d' =>
      if decide (k' = k) then (k', f (Some v)) :: d'
      else (k', v) :: dict_update f k d'
  end.

End ordered_dict.

(** [d.keys()], [d.values()] and [k in d] *)
Abbreviation keys d := (d.*1).
Abbreviation values d := (d.*2).

(** [Counter(iterable)] *)
Definition Counter {K} `{EqDecision K} (l : list K) : list (K * nat) :=
  foldl (λ c k, dict_update (λ n, S (default 0 n)) k c) [] l.

(** [d = defaultdict(list)] followed by [d[key(x)].append(x)] for every
    [x] of [l] in order. *)
Definition group_by {K A} `{EqDecision K} (key : A → K) (l : list A)
  : list (K * list A) :=
  foldl (λ d x, dict_update (λ xs, default [] xs ++ [x]) (key x) d) [] l.

Section sorted.
Context {A : Type} (key : A → nat).

(** [x] comes before every element of [l] in the input: it is placed
    before the first element whose key is not greater than its own. *)
Fixpoint insert_reverse (x : A) (l : list A) : list A :=
  match l with
  | [] => [x]
  | y :: l' =>
      if decide (key x < key y) then y :: insert_reverse x l' else x :: l
  end.

(** [sorted(l, key=key, reverse=True)]: the stable sort by descending
    key (elements with equal keys keep their input order). *)
Definition sorted_reverse (l : list A) : list A :=
  foldr insert_reverse [] l.
End sorted.

(** ** The report document *)

Module Totals.
Record t := mk { funnels : nat; offers : nat }.
End Totals.

Module Integrity.
Record t := mk {
  offers_missing_funnel_id : nat;
  offers_with_invalid_funnel_id : nat;
  offers_missing_project_id : nat;
  offers_missing_nome_produto : nat;
  offers_missing_nome_oferta : nat;
  funnels_without_offers : nat }.
End Integrity.

Module Duplicates.
Record t := mk { groups : nat; extra_rows : nat }.
End Duplicates.

Module Semantics.
Record t := mk {
  generic_offer_names : nat;
  by_origem : list (string * nat) }.
End Semantics.

Module FunnelSample.
Record t := mk { id : value; name : value }.
End FunnelSample.

Module DuplicateSample.
Record t := mk {
  count : nat;
  project_id : value;
  funnel_id : value;
  nome_produto : value;
  nome_oferta : value }.
End DuplicateSample.

Module Samples.
Record t := mk {
  invalid_funnel_ids : list (value * nat);
  funnels_without_offers : list FunnelSample.t;
  top_duplicate_groups : list DuplicateSample.t }.
End Samples.

Module Remediation.
Record t := mk {
  check_invalid_funnel_sql : string;
  backfill_by_legacy_name_sql : string;
  reassign_invalid_funnel_sql_template : string }.
End Remediation.

Module Report.
Record t := mk {
  totals : Totals.t;
  integrity : Integrity.t;
  duplicates : Duplicates.t;
  semantics : Semantics.t;
  samples : Samples.t;
  remediation : Remediation.t }.
End Report.

(** ** The analysis of [main] *)

(** Line 30: [{row["id"] for row in funnels}] *)
Definition funnel_ids (funnels : list row) : option (gset value) :=
  ids ← mapM (λ row, getitem row "id") funnels; Some (list_to_set ids).

(** Line 32: [row.get("funnel_id") and row["funnel_id"] not in funnel_ids] *)
Definition invalid_funnel_rows (funnel_ids : gset value) (offers : list row)
  : option (list row) :=
  filterM (λ row,
    if decide (truthy (get row "funnel_id"))
    then v ← getitem row "funnel_id"; Some (bool_decide (v ∉ funnel_ids))
    else Some false) offers.

(** Lines 33-36: [[row for row in offers if not row.get(column)]] *)
Definition missing_rows (column : string) (offers : list row) : list row :=
  filter (λ row, ¬ truthy (get row column)) offers.

Definition missing_funnel_rows := missing_rows "funnel_id".
Definition missing_project_rows := missing_rows "project_id".
Definition missing_product_rows := missing_rows "nome_produto".
Definition missing_offer_rows := missing_rows "nome_oferta".

(** Line 38 *)
Definition offers_by_funnel (offers : list row) : option (list (value * nat)) :=
  ids ← mapM (λ row, getitem row "funnel_id")
         (filter (λ row, truthy (get row "funnel_id")) offers);
  Some (Counter ids).

(** Line 39 *)
Definition funnels_without_offers (offers_by_funnel : list (value * nat))
    (funnels : list row) : option (list row) :=
  filterM (λ row,
    id ← getitem row "id"; Some (bool_decide (id ∉ keys offers_by_funnel)))
    funnels.

(** Lines 43-48 *)
Definition dup_key (row : row) : string * string * string * string :=
  (normalize (get row "project_id"),
   normalize (get row "funnel_id"),
   normalize (get row "nome_produto"),
   normalize (get row "nome_oferta")).

(** Lines 41-49: the [defaultdict] after the loop. *)
Definition grouped_offers (offers : list row)
  : list ((string * string * string * string) * list row) :=
  group_by dup_key offers.

(** Line 51 *)
Definition duplicate_groups (offers : list row)
  : list ((string * string * string * string) * list row) :=
  filter (λ kv, 1 < length kv.2) (grouped_offers offers).

(** Lines 53-57 *)
Definition generic_offer_names : gset string :=
  {[ "auto-importado";
     "auto-importado de vendas existentes";
     "importado das vendas" ]}.

(** Line 58 *)
Definition generic_offers (offers : list row) : list row :=
  filter (λ row, normalize (get row "nome_oferta") ∈ generic_offer_names) offers.

(** Lines 60-84 *)
Definition remediation : Remediation.t :=
  {| Remediation.check_invalid_funnel_sql :=
       "SELECT om.project_id, om.funnel_id, COUNT(*) "
       +:+ "FROM public.offer_mappings om "
       +:+ "LEFT JOIN public.funnels f ON f.id = om.funnel_id "
       +:+ "WHERE om.funnel_id IS NOT NULL AND f.id IS NULL "
       +:+ "GROUP BY om.project_id, om.funnel_id ORDER BY COUNT(*) DESC;";
     Remediation.backfill_by_legacy_name_sql :=
       "UPDATE public.offer_mappings om "
       +:+ "SET funnel_id = f.id, updated_at = now() "
       +:+ "FROM public.funnels f "
       +:+ "WHERE om.project_id = f.project_id "
       +:+ "AND om.funnel_id IS NULL "
       +:+ "AND om.id_funil IS NOT NULL "
       +:+ "AND btrim(lower(om.id_funil)) = btrim(lower(f.name));";
     Remediation.reassign_invalid_funnel_sql_template :=
       "UPDATE public.offer_mappings om "
       +:+ "SET funnel_id = :target_funnel_id::uuid, updated_at = now() "
       +:+ "WHERE om.project_id = :project_id::uuid "
       +:+ "AND (om.funnel_id IS NULL OR NOT EXISTS ("
       +:+ "SELECT 1 FROM public.funnels f WHERE f.id = om.funnel_id));" |}.

(** Lines 106-108 *)
Definition funnel_sample (row : row) : option FunnelSample.t :=
  id ← getitem row "id";
  Some {| FunnelSample.id := id;
          FunnelSample.name := get_default row "name" "" |}.

(** Lines 110-116; [rows[0]] raises [IndexError] on an empty list. *)
Definition duplicate_sample (rows : list row) : option DuplicateSample.t :=
  first ← head rows;
  Some {| DuplicateSample.count := length rows;
          DuplicateSample.project_id := get_default first "project_id" "";
          DuplicateSample.funnel_id := get_default first "funnel_id" "";
          DuplicateSample.nome_produto := get_default first "nome_produto" "";
          DuplicateSample.nome_oferta := get_default first "nome_oferta" "" |}.

(** Lines 26-121: [main], from the two row lists that [read_csv] returned
    to the [report] that is printed. *)
Definition main (funnels offers : list row) : option Report.t :=
  funnel_ids ← funnel_ids funnels;
  invalid_funnel_rows ← invalid_funnel_rows funnel_ids offers;
  offers_by_funnel ← offers_by_funnel offers;
  funnels_without_offers ← funnels_without_offers offers_by_funnel funnels;
  let duplicate_groups := duplicate_groups offers in
  invalid_funnel_ids ← mapM (λ row, getitem row "funnel_id") invalid_funnel_rows;
  sample_funnels ← mapM funnel_sample (take 10 funnels_without_offers);
  sample_groups ←
    mapM duplicate_sample
      (take 10 (sorted_reverse length (values duplicate_groups)));
  Some {|
    Report.totals :=
      {| Totals.funnels := length funnels; Totals.offers := length offers |};
    Report.integrity :=
      {| Integrity.offers_missing_funnel_id := length (missing_funnel_rows offers);
         Integrity.offers_with_invalid_funnel_id := length invalid_funnel_rows;
         Integrity.offers_missing_project_id := length (missing_project_rows offers);
         Integrity.offers_missing_nome_produto := length (missing_product_rows offers);
         Integrity.offers_missing_nome_oferta := length (missing_offer_rows offers);
         Integrity.funnels_without_offers := length funnels_without_offers |};
    Report.duplicates :=
      {| Duplicates.groups := length duplicate_groups;
         Duplicates.extra_rows :=
           sum_list ((λ rows, length rows - 1) <$> values duplicate_groups) |};
    Report.semantics :=
      {| Semantics.generic_offer_names := length (generic_offers offers);
         Semantics.by_origem :=
           Counter ((λ row, value_or (get row "origem") "(vazio)") <$> offers) |};
    Report.samples :=
      {| Samples.invalid_funnel_ids := Counter invalid_funnel_ids;
         Samples.funnels_without_offers := sample_funnels;
         Samples.top_duplicate_groups := sample_groups |};
    Report.remediation := remediation |}.

(** ** Sample datasets *)

Definition sample_funnels : list row :=
  [ {[ "id" := Some "F1"; "name" := Some "Sale" ]};
    {[ "id" := Some "F2"; "name" := Some "Lead" ]} ].

Definition sample_offers : list row :=
  [ {[ "project_id" := Some "P1"; "funnel_id" := Some "F1";
       "nome_produto" := Some "X"; "nome_oferta" := Some "Auto-Importado" ]};
    {[ "project_id" := Some "P1"; "funnel_id" := Some "F9";
       "nome_produto" := Some "X"; "nome_oferta" := Some "Promo" ]};
    {[ "project_id" := Some "P1"; "funnel_id" := Some "";
       "nome_produto" := Some "Y"; "nome_oferta" := Some "Promo" ]} ].

(** ** Vocabulary of the properties *)

(** The distinct elements of a list, in the order of their first
    occurrence. *)
Fixpoint first_occurrences {K} `{EqDecision K} (l : list K) : list K :=
  match l with
  | [] => []
  | k :: l' => k :: filter (λ k', k' ≠ k) (first_occurrences l')
  end.

(** The number of occurrences of [k] in [l]. *)
Definition occurrences {K} `{EqDecision K} (k : K) (l : list K) : nat :=
  length (filter (λ k', k' = k) l).

(** The funnels source exposes the column [id]: every funnel row has the
    key (its cell may still be [None]). *)
Definition funnels_expose_id (funnels : list row) : Prop :=
  Forall (λ funnel, is_Some (funnel !! "id")) funnels.

(** The [id] values of the funnel rows. *)
Definition funnel_id_values (funnels : list row) : list value :=
  (λ funnel, get funnel "id") <$> funnels.

(** The [funnel_id] of an offer row is empty or absent. *)
Definition funnel_id_missing (offer : row) : Prop :=
  offer !! "funnel_id" = None
  ∨ offer !! "funnel_id" = Some None
  ∨ offer !! "funnel_id" = Some (Some "").

(** The [funnel_id] of an offer row is a non-empty string that is the [id]
    of no funnel row. *)
Definition funnel_id_invalid (funnels : list row) (offer : row) : Prop :=
  match offer !! "funnel_id" with
  | Some (Some s) => s ≠ "" ∧ Some s ∉ funnel_id_values funnels
  | _ => False
  end.

Global Instance funnel_id_missing_dec offer : Decision (funnel_id_missing offer).
Proof. unfold funnel_id_missing. apply _. Defined.

Global Instance funnel_id_invalid_dec funnels offer :
  Decision (funnel_id_invalid funnels offer).
Proof.
  unfold funnel_id_invalid. destruct (offer !! "funnel_id") as [[s|]|]; apply _.
Defined.

(** The non-empty [funnel_id] values of the offer rows. *)
Definition offer_funnel_ids (offers : list row) : list value :=
  (λ offer, get offer "funnel_id")
    <$> filter (λ offer, truthy (get offer "funnel_id")) offers.

(** The size of the group of offer rows with normalised 4-tuple [k]. *)
Definition group_size (offers : list row)
    (k : string * string * string * string) : nat :=
  length (filter (λ offer, dup_key offer = k) offers).

(** The normalised 4-tuples shared by more than one offer row, in the
    order in which the rows first show them. *)
Definition duplicate_keys (offers : list row)
  : list (string * string * string * string) :=
  filter (λ k, 1 < group_size offers k) (first_occurrences (dup_key <$> offers)).

(** The first offer row, in input order, with normalised 4-tuple [k]. *)
Definition first_row (offers : list row)
    (k : string * string * string * string) : option row :=
  snd <$> list_find (λ offer, dup_key offer = k) offers.

(** The sample entry of the duplicate group with normalised 4-tuple [k]:
    its size and the four fields of its first row. *)
Definition duplicate_entry (offers : list row)
    (k : string * string * string * string) : option DuplicateSample.t :=
  first ← first_row offers k;
  Some {| DuplicateSample.count := group_size offers k;
          DuplicateSample.project_id := get_default first "project_id" "";
          DuplicateSample.funnel_id := get_default first "funnel_id" "";
          DuplicateSample.nome_produto := get_default first "nome_produto" "";
          DuplicateSample.nome_oferta := get_default first "nome_oferta" "" |}.

(** The funnel rows whose [id] is the non-empty [funnel_id] of no offer
    row. *)
Definition funnels_with_no_offer (funnels offers : list row) : list row :=
  filter (λ funnel, get funnel "id" ∉ offer_funnel_ids offers) funnels.

(** The distinct funnel ids that at least one offer row refers to. *)
Definition funnel_ids_with_offers (funnels offers : list row) : gset value :=
  list_to_set (funnel_id_values funnels) ∩ list_to_set (offer_funnel_ids offers).

(** Two funnel rows with the same [id], and one offer of that funnel. *)
Definition twin_funnels : list row :=
  [ {[ "id" := Some "F1"; "name" := Some "Sale" ]};
    {[ "id" := Some "F1"; "name" := Some "Sale again" ]} ].

Definition one_offer : list row :=
  [ {[ "project_id" := Some "P1"; "funnel_id" := Some "F1";
       "nome_produto" := Some "X"; "nome_oferta" := Some "Promo" ]} ].

(** Offers with repeated normalised 4-tuples: "curso a" twice, "curso b"
    twice, "curso c" three times and "curso d" once, written with
    different case and spacing. *)
Definition offer (produto oferta : string) : row :=
  {[ "project_id" := Some "P1"; "funnel_id" := Some "F1";
     "nome_produto" := Some produto; "nome_oferta" := Some oferta ]}.

Definition duplicated_offers : list row :=
  [ offer "Curso A" "Promo";
    offer "curso  a " "PROMO";
    offer "Curso B" "Promo";
    offer "Curso C" "Promo";
    offer "CURSO C" "promo";
    offer "Curso B" " promo";
    offer "Curso C" "Promo ";
    offer "Curso D" "Promo" ].

(** Eleven offers, each referring to a funnel of its own that does not
    exist. *)
Definition eleven_invalid_offers : list row :=
  (λ s, {[ "funnel_id" := Some s ]})
    <$> ["X01"; "X02"; "X03"; "X04"; "X05"; "X06"; "X07"; "X08"; "X09";
         "X10"; "X11"].

(** The cell of [column] in a row is empty or absent. *)
Definition column_missing (column : string) (r : row) : Prop :=
  r !! column = None ∨ r !! column = Some None ∨ r !! column = Some (Some "").

Global Instance column_missing_dec column r : Decision (column_missing column r).
Proof. unfold column_missing. apply _. Defined.

(** The [funnel_id] of an offer row is a non-empty string that is the [id]
    of some funnel row. *)
Definition funnel_id_valid (funnels : list row) (offer : row) : Prop :=
  match offer !! "funnel_id" with
  | Some (Some s) => s ≠ "" ∧ Some s ∈ funnel_id_values funnels
  | _ => False
  end.

Global Instance funnel_id_valid_dec funnels offer :
  Decision (funnel_id_valid funnels offer).
Proof.
  unfold funnel_id_valid. destruct (offer !! "funnel_id") as [[s|]|]; apply _.
Defined.

(** The label under which [by_origem] counts an offer row. *)
Definition origem_label (offer : row) : string :=
  value_or (get offer "origem") "(vazio)".

(** * Properties *)

(** ** The normaliser *)

Section chars.
Import Str.

Lemma isspace_lower_char c : isspace (lower_char c) = isspace c.
Proof. by destruct c as [[] [] [] [] [] [] [] []]. Qed.


Lemma lower_char_eq_isspace c d :
  lower_char c = lower_char d → isspace c = isspace d.
Proof.
  intros Hcd. rewrite <-(isspace_lower_char c), Hcd. apply isspace_lower_char.
Qed.

(** *** [rstrip] is [lstrip] read from the right *)

Lemma lstrip_snoc s c :
  lstrip (s ++ [c])
  = match lstrip s with
    | [] => if isspace c then [] else [c]
    | s' => s' ++ [c]
    end.
Proof.
  induction s as [|a s IH]; simpl; [done|].
  by destruct (isspace a).
Qed.

Lemma rstrip_reverse s : rstrip s = reverse (lstrip (reverse s)).
Proof.
  induction s as [|c t IH]; simpl; [done|].
  rewrite reverse_cons, lstrip_snoc, IH.
  destruct (lstrip (reverse t)) as [|a u]; simpl.
  - by destruct (isspace c).
  - change (a :: u ++ [c]) with ((a :: u) ++ [c]). rewrite reverse_snoc.
    destruct (reverse (a :: u)) eqn:Hr; [|done].
    apply (f_equal length) in Hr. by rewrite length_reverse in Hr.
Qed.

(** *** [rstrip] and the strings made of whitespace only *)

Lemma rstrip_nil_iff s : rstrip s = [] ↔ Forall (λ c, isspace c = true) s.
Proof.
  induction s as [|c t IH]; simpl; [by split; [constructor|]|].
  destruct (rstrip t) as [|c' t'] eqn:Ht.
  - destruct (isspace c) eqn:Hc.
    + split; [intros _; constructor; [done|by apply IH]|done].
    + split; [done|]. intros [Hc' _]%Forall_cons. congruence.
  - split; [done|]. intros [_ Ht']%Forall_cons. by apply IH in Ht'.
Qed.

Lemma scan_all_space st s : rstrip s = [] → scan st s = [].
Proof.
  rewrite rstrip_nil_iff. intros Hs. revert st.
  induction Hs as [|c t Hc _ IH]; intros st; simpl; [done|].
  rewrite Hc. apply IH.
Qed.

Lemma scan_rstrip t :
  (rstrip t ≠ [] →
     scan AfterSpace t = " "%char :: sub_spaces_from true (lower (rstrip t)))
  ∧ scan InWord t = sub_spaces_from false (lower (rstrip t)).
Proof.
  induction t as [|c t [IH1 IH2]]; [done|]. simpl.
  destruct (rstrip t) as [|c' t'] eqn:Ht.
  - rewrite !(scan_all_space _ t Ht).
    destruct (isspace c) eqn:Hc; simpl; [done|].
    by rewrite isspace_lower_char, Hc.
  - specialize (IH1 ltac:(done)). simpl in *.
    rewrite isspace_lower_char.
    destruct (isspace c) eqn:Hc; simpl.
    + by rewrite IH1.
    + by rewrite IH2.
Qed.

Lemma scan_lstrip s : scan AtStart s = scan InWord (lstrip s).
Proof.
  induction s as [|c t IH]; simpl; [done|].
  destruct (isspace c) eqn:Hc; simpl; [done|]. by rewrite Hc.
Qed.

Lemma normalize_chars_scan s : normalize_chars s = scan AtStart s.
Proof.
  unfold normalize_chars, sub_spaces, strip.
  by rewrite scan_lstrip, (proj2 (scan_rstrip _)).
Qed.
(** *** Idempotence of the scanner *)



(** *** The scanner does not see case or the length of a run *)

Lemma scan_case st p c d s :
  lower_char c = lower_char d → scan st (p ++ c :: s) = scan st (p ++ d :: s).
Proof.
  intros Hcd. pose proof (lower_char_eq_isspace _ _ Hcd) as Hsp.
  revert st. induction p as [|a p IH]; intros st; simpl.
  - by rewrite Hsp, Hcd.
  - by rewrite !IH.
Qed.

Lemma after_space_idemp st : after_space (after_space st) = after_space st.
Proof. by destruct st. Qed.

Lemma scan_run_l st p w w' s :
  isspace w = true → isspace w' = true →
  scan st (p ++ w :: w' :: s) = scan st (p ++ w :: s).
Proof.
  intros Hw Hw'. revert st. induction p as [|a p IH]; intros st; simpl.
  - by rewrite Hw, Hw', after_space_idemp.
  - by rewrite !IH.
Qed.

Lemma scan_run_r st p w w' s :
  isspace w = true → isspace w' = true →
  scan st (p ++ w :: w' :: s) = scan st (p ++ w' :: s).
Proof.
  intros Hw Hw'. revert st. induction p as [|a p IH]; intros st; simpl.
  - by rewrite Hw, Hw', after_space_idemp.
  - by rewrite !IH.
Qed.

Lemma scan_cosmetic_step st x y : cosmetic_step x y → scan st x = scan st y.
Proof.
  destruct 1; eauto using scan_case, scan_run_l, scan_run_r.
Qed.

Lemma scan_cosmetic st x y : rtsc cosmetic_step x y → scan st x = scan st y.
Proof.
  induction 1 as [|x y z [Hxy|Hyx] _ IH]; [done|..].
  - by rewrite (scan_cosmetic_step st x y).
  - by rewrite <-(scan_cosmetic_step st y x).
Qed.

(** *** Collapsing, trimming and lower-casing commute *)






End chars.

Lemma normalize_scan v :
  normalize v = string_of_list_ascii (scan AtStart (list_ascii_of_string (or_empty v))).
Proof. unfold normalize. by rewrite normalize_chars_scan. Qed.


Lemma normalize_cosmetic x y :
  differ_only_in_case_or_space_runs x y → normalize (Some x) = normalize (Some y).
Proof.
  intros Hxy. rewrite !normalize_scan. simpl.
  by rewrite (scan_cosmetic AtStart _ _ Hxy).
Qed.




(** ** Lists, dictionaries in insertion order, and the stable sort *)

Section first_occurrences.
Context {K : Type} `{EqDecision K}.
Implicit Types (k : K) (l : list K).

Lemma elem_of_first_occurrences k l : k ∈ first_occurrences l ↔ k ∈ l.
Proof.
  induction l as [|a l IH]; simpl; [done|].
  rewrite !elem_of_cons, list_elem_of_filter, IH.
  destruct (decide (k = a)); tauto.
Qed.

Lemma NoDup_first_occurrences l : NoDup (first_occurrences l).
Proof.
  induction l as [|a l IH]; simpl; constructor.
  - rewrite list_elem_of_filter. by intros [Ha _].
  - by apply NoDup_filter.
Qed.

Lemma first_occurrences_snoc l k :
  first_occurrences (l ++ [k])
  = if decide (k ∈ l) then first_occurrences l else first_occurrences l ++ [k].
Proof.
  induction l as [|a l IH]; simpl.
  - done.
  - rewrite IH. destruct (decide (k ∈ a :: l)) as [Hin|Hnin].
    + apply elem_of_cons in Hin.
      destruct (decide (k ∈ l)) as [Hl|Hl]; [done|].
      destruct Hin as [->|?]; [|done].
      rewrite filter_app, filter_cons_False by (intros Ha; by apply Ha).
      by rewrite filter_nil, app_nil_r.
    + apply not_elem_of_cons in Hnin as [Hne Hl].
      rewrite decide_False by done.
      by rewrite filter_app, filter_cons_True by done.
Qed.

Lemma filter_ne_not_elem_of k l : k ∉ l → filter (λ k', k' ≠ k) l = l.
Proof.
  induction l as [|b l IH]; [done|].
  intros [Hkb Hk]%not_elem_of_cons.
  rewrite filter_cons_True by done. f_equal. auto.
Qed.

Lemma first_occurrences_NoDup l : NoDup l → first_occurrences l = l.
Proof.
  induction 1 as [|a l Ha _ IH]; simpl; [done|].
  by rewrite IH, filter_ne_not_elem_of.
Qed.

Lemma sum_list_indicator k (ks : list K) :
  NoDup ks → k ∈ ks →
  sum_list ((λ k', if decide (k = k') then 1 else 0) <$> ks) = 1.
Proof.
  induction 1 as [|a ks Ha _ IH]; [by intros ?%elem_of_nil|].
  simpl. intros [->|Hin]%elem_of_cons.
  - rewrite decide_True by done. f_equal.
    clear IH. induction ks as [|b ks IH]; [done|]. simpl.
    rewrite not_elem_of_cons in Ha. destruct Ha as [Hab Ha].
    rewrite decide_False by done. auto.
  - rewrite decide_False by (intros ->; done). auto.
Qed.
End first_occurrences.

Section dict_update.
Context {K V : Type} `{EqDecision K}.

Lemma dict_update_fmap (F F' : K → V) (f : option V → V) k (ks : list K) :
  NoDup ks →
  (∀ k', k' ∈ ks → k' ≠ k → F' k' = F k') →
  (k ∈ ks → F' k = f (Some (F k))) →
  (k ∉ ks → F' k = f None) →
  dict_update f k ((λ k', (k', F k')) <$> ks)
  = (λ k', (k', F' k')) <$> (if decide (k ∈ ks) then ks else ks ++ [k]).
Proof.
  induction 1 as [|a ks Ha Hnd IH]; intros Hother Hin Hnin; csimpl.
  - rewrite Hnin by apply not_elem_of_nil. done.
  - destruct (decide (a = k)) as [->|Hne].
    + rewrite decide_True by left. simpl.
      rewrite <-Hin by left. f_equal.
      apply list_fmap_ext. intros i k' Hk'%list_elem_of_lookup_2.
      rewrite Hother; [done|by right|by intros ->].
    + rewrite IH.
      * destruct (decide (k ∈ ks)) as [Hk|Hk].
        -- rewrite decide_True by by right.
           simpl. by rewrite (Hother a) by (done || left).
        -- rewrite decide_False by (by intros [->|?]%elem_of_cons).
           simpl. by rewrite (Hother a) by (done || left).
      * intros k' ??. apply Hother; [by right|done].
      * intros ?. apply Hin. by right.
      * intros ?. apply Hnin. by intros [->|?]%elem_of_cons.
Qed.

(** A dictionary filled by one [dict_update] per element of [l] holds,
    for every key in first-occurrence order, an aggregate [agg k l] of
    the elements with that key. *)
Lemma foldl_dict_update {A} (key : A → K) (upd : A → option V → V)
    (agg : K → list A → V) (l : list A) :
  (∀ l x, key x ∉ key <$> l → agg (key x) (l ++ [x]) = upd x None) →
  (∀ l x, key x ∈ key <$> l →
          agg (key x) (l ++ [x]) = upd x (Some (agg (key x) l))) →
  (∀ k l x, key x ≠ k → agg k (l ++ [x]) = agg k l) →
  foldl (λ d x, dict_update (upd x) (key x) d) [] l
  = (λ k, (k, agg k l)) <$> first_occurrences (key <$> l).
Proof.
  intros Hnew Hold Hother.
  induction l as [|x l IH] using rev_ind; [done|].
  rewrite foldl_snoc, IH, fmap_app.
  change (key <$> [x]) with [key x]. rewrite first_occurrences_snoc.
  rewrite (dict_update_fmap (λ k, agg k l) (λ k, agg k (l ++ [x]))).
  - f_equal.
    destruct (decide (key x ∈ first_occurrences (key <$> l))) as [Hk|Hk];
      rewrite elem_of_first_occurrences in Hk.
    + by rewrite decide_True.
    + by rewrite decide_False.
  - apply NoDup_first_occurrences.
  - intros k' _ Hk'. apply Hother. done.
  - rewrite elem_of_first_occurrences. apply Hold.
  - rewrite elem_of_first_occurrences. apply Hnew.
Qed.
End dict_update.

Lemma filter_none {A} (P : A → Prop) `{∀ x, Decision (P x)} (l : list A) :
  (∀ x, x ∈ l → ¬ P x) → filter P l = [].
Proof.
  induction l as [|a l IH]; intros Hl; [done|].
  rewrite filter_cons_False by (apply Hl; left).
  apply IH. intros x ?. apply Hl. by right.
Qed.

Lemma Counter_spec {K} `{EqDecision K} (l : list K) :
  Counter l = (λ k, (k, occurrences k l)) <$> first_occurrences l.
Proof.
  unfold Counter.
  rewrite (foldl_dict_update id (λ _ n, S (default 0 n)) occurrences).
  - by rewrite list_fmap_id.
  - intros l' x Hx. rewrite list_fmap_id in Hx. unfold occurrences.
    rewrite filter_app, filter_cons_True, filter_nil by done.
    rewrite filter_none; [done|]. by intros y Hy ->.
  - intros l' x _. unfold occurrences.
    rewrite filter_app, filter_cons_True, filter_nil by done.
    rewrite length_app. simpl. lia.
  - intros k l' x Hne. unfold occurrences.
    by rewrite filter_app, filter_cons_False, filter_nil, app_nil_r by done.
Qed.

Lemma group_by_spec {K A} `{EqDecision K} (key : A → K) (l : list A) :
  group_by key l
  = (λ k, (k, filter (λ x, key x = k) l)) <$> first_occurrences (key <$> l).
Proof.
  unfold group_by.
  apply (foldl_dict_update key (λ x xs, default [] xs ++ [x])
           (λ k l, filter (λ x, key x = k) l)).
  - intros l' x Hx.
    rewrite filter_app, filter_cons_True, filter_nil by done.
    rewrite filter_none; [done|].
    intros y Hy Hk. apply Hx. rewrite <-Hk. by apply list_elem_of_fmap_2.
  - intros l' x _. by rewrite filter_app, filter_cons_True, filter_nil by done.
  - intros k l' x Hne.
    by rewrite filter_app, filter_cons_False, filter_nil, app_nil_r by done.
Qed.

Section sorted_reverse.
Context {A : Type} (key : A → nat).
Implicit Types (x : A) (l : list A).

Lemma insert_reverse_Permutation x l : insert_reverse key x l ≡ₚ x :: l.
Proof.
  induction l as [|y l IH]; simpl; [done|].
  case_decide; [|done]. by rewrite IH, Permutation_swap.
Qed.

Lemma sorted_reverse_Permutation l : sorted_reverse key l ≡ₚ l.
Proof.
  induction l as [|x l IH]; simpl; [done|].
  by rewrite insert_reverse_Permutation, IH.
Qed.

Lemma insert_reverse_sorted x l :
  StronglySorted (λ a b, key b ≤ key a) l →
  StronglySorted (λ a b, key b ≤ key a) (insert_reverse key x l).
Proof.
  induction 1 as [|y l Hl IH Hy]; simpl.
  - repeat constructor.
  - case_decide as Hxy.
    + constructor; [done|].
      rewrite insert_reverse_Permutation. constructor; [lia|done].
    + constructor; [by constructor|].
      constructor; [lia|]. eapply Forall_impl; [exact Hy|].
      simpl. intros z ?. lia.
Qed.

Lemma sorted_reverse_sorted l :
  StronglySorted (λ a b, key b ≤ key a) (sorted_reverse key l).
Proof.
  induction l as [|x l IH]; simpl; [constructor|].
  by apply insert_reverse_sorted.
Qed.

Lemma insert_reverse_filter n x l :
  filter (λ a, key a = n) (insert_reverse key x l)
  = filter (λ a, key a = n) (x :: l).
Proof.
  induction l as [|y l IH]; simpl; [done|].
  case_decide as Hxy; [|done].
  rewrite (filter_cons _ y), IH, !(filter_cons _ x), (filter_cons _ y).
  repeat case_decide; done || lia.
Qed.

(** Elements with equal keys keep the order they had in the input. *)
Lemma sorted_reverse_stable n l :
  filter (λ a, key a = n) (sorted_reverse key l) = filter (λ a, key a = n) l.
Proof.
  induction l as [|x l IH]; simpl; [done|].
  by rewrite insert_reverse_filter, !filter_cons, IH.
Qed.
End sorted_reverse.

Lemma sorted_reverse_fmap {A B} (key : B → nat) (f : A → B) (l : list A) :
  sorted_reverse key (f <$> l) = f <$> sorted_reverse (key ∘ f) l.
Proof.
  induction l as [|x l IH]; csimpl; [done|]. rewrite IH.
  generalize (sorted_reverse (key ∘ f) l). intros s.
  induction s as [|y s IHs]; csimpl; [done|].
  case_decide; csimpl; by rewrite ?IHs.
Qed.

(** ** Evaluation of [main] *)

(** A subscript guarded by the truthiness of [row.get] cannot raise. *)
Lemma getitem_truthy (r : row) k : truthy (get r k) → getitem r k = Some (get r k).
Proof. unfold get, getitem. by destruct (r !! k). Qed.

Lemma filterM_filter {A} (p : A → option bool) (P : A → Prop)
    `{∀ x, Decision (P x)} (l : list A) :
  (∀ x, x ∈ l → p x = Some (bool_decide (P x))) →
  filterM p l = Some (filter P l).
Proof.
  induction l as [|x l IH]; intros Hp; simpl; [done|].
  rewrite Hp by left. simpl. rewrite IH by (intros; apply Hp; by right).
  simpl. rewrite filter_cons. by case_bool_decide; case_decide.
Qed.

Lemma mapM_fmap_total {A B} (f : A → option B) (g : A → B) (l : list A) :
  (∀ x, x ∈ l → f x = Some (g x)) → mapM f l = Some (g <$> l).
Proof.
  intros Hf. apply mapM_Some, Forall2_fmap_r, Forall_Forall2_diag, Forall_forall.
  done.
Qed.

Lemma funnels_expose_id_getitem funnels funnel :
  funnels_expose_id funnels → funnel ∈ funnels →
  getitem funnel "id" = Some (get funnel "id").
Proof.
  unfold funnels_expose_id. rewrite Forall_forall. intros Hid Hin.
  destruct (Hid _ Hin) as [v Hv]. unfold get, getitem. by rewrite Hv.
Qed.

Lemma funnel_ids_success funnels :
  funnels_expose_id funnels →
  funnel_ids funnels = Some (list_to_set (funnel_id_values funnels)).
Proof.
  intros Hid. unfold funnel_ids.
  rewrite (mapM_fmap_total _ (λ funnel, get funnel "id")); [done|].
  eauto using funnels_expose_id_getitem.
Qed.

Lemma funnel_ids_Some funnels ids :
  funnel_ids funnels = Some ids → funnels_expose_id funnels.
Proof.
  unfold funnel_ids, funnels_expose_id. intros Hids.
  destruct (mapM _ funnels) as [l|] eqn:Hl; [|done].
  apply mapM_Some in Hl. clear Hids.
  induction Hl; constructor; eauto.
Qed.

Lemma truthy_iff_not_missing (offer : row) :
  ¬ truthy (get offer "funnel_id") ↔ funnel_id_missing offer.
Proof.
  unfold get, funnel_id_missing.
  destruct (offer !! "funnel_id") as [[s|]|]; simpl.
  - split.
    + intros Hs. right. right. f_equal. f_equal.
      destruct (decide (s = "")); [done|]. by destruct Hs.
    + intros [?|[?|?]] ?; congruence.
  - split; [by right; left|tauto].
  - split; [by left|tauto].
Qed.

Lemma invalid_iff (funnels : list row) (offer : row) :
  truthy (get offer "funnel_id")
  ∧ get offer "funnel_id" ∉ (list_to_set (funnel_id_values funnels) : gset value)
  ↔ funnel_id_invalid funnels offer.
Proof.
  unfold get, funnel_id_invalid. rewrite elem_of_list_to_set.
  destruct (offer !! "funnel_id") as [[s|]|]; simpl; tauto.
Qed.

Lemma missing_funnel_rows_eq offers :
  missing_funnel_rows offers = filter funnel_id_missing offers.
Proof. apply list_filter_iff, truthy_iff_not_missing. Qed.

Lemma invalid_funnel_rows_success funnels offers :
  invalid_funnel_rows (list_to_set (funnel_id_values funnels)) offers
  = Some (filter (funnel_id_invalid funnels) offers).
Proof.
  unfold invalid_funnel_rows.
  rewrite <-(list_filter_iff _ _ offers (invalid_iff funnels)).
  apply filterM_filter. intros offer _.
  destruct (decide (truthy _)) as [Ht|Ht].
  - rewrite (getitem_truthy _ _ Ht). simpl. f_equal.
    apply bool_decide_ext. tauto.
  - f_equal. symmetry. apply bool_decide_eq_false. tauto.
Qed.

Lemma funnel_id_invalid_truthy funnels offer :
  funnel_id_invalid funnels offer → truthy (get offer "funnel_id").
Proof. intros H%invalid_iff. tauto. Qed.

Lemma invalid_funnel_ids_success funnels offers :
  mapM (λ row, getitem row "funnel_id") (filter (funnel_id_invalid funnels) offers)
  = Some ((λ row, get row "funnel_id") <$> filter (funnel_id_invalid funnels) offers).
Proof.
  apply mapM_fmap_total. intros offer [Hinv _]%list_elem_of_filter.
  eauto using getitem_truthy, funnel_id_invalid_truthy.
Qed.

Lemma offers_by_funnel_success offers :
  offers_by_funnel offers = Some (Counter (offer_funnel_ids offers)).
Proof.
  unfold offers_by_funnel, offer_funnel_ids.
  rewrite (mapM_fmap_total _ (λ offer, get offer "funnel_id")); [done|].
  intros offer [Ht _]%list_elem_of_filter. by apply getitem_truthy.
Qed.

Lemma keys_Counter {K} `{EqDecision K} (l : list K) :
  keys (Counter l) = first_occurrences l.
Proof.
  rewrite Counter_spec, <-list_fmap_compose. apply list_fmap_id.
Qed.

Lemma funnels_without_offers_success funnels offers :
  funnels_expose_id funnels →
  funnels_without_offers (Counter (offer_funnel_ids offers)) funnels
  = Some (funnels_with_no_offer funnels offers).
Proof.
  intros Hid. unfold funnels_without_offers, funnels_with_no_offer.
  apply filterM_filter. intros funnel Hin.
  rewrite (funnels_expose_id_getitem _ _ Hid Hin). simpl. f_equal.
  apply bool_decide_ext. by rewrite keys_Counter, elem_of_first_occurrences.
Qed.

Lemma funnel_sample_success funnels offers :
  funnels_expose_id funnels →
  mapM funnel_sample (take 10 (funnels_with_no_offer funnels offers))
  = Some ((λ funnel, {| FunnelSample.id := get funnel "id";
                        FunnelSample.name := get_default funnel "name" "" |})
            <$> take 10 (funnels_with_no_offer funnels offers)).
Proof.
  intros Hid. apply mapM_fmap_total.
  intros funnel [_ Hin]%subseteq_take%list_elem_of_filter.
  unfold funnel_sample. by rewrite (funnels_expose_id_getitem _ _ Hid Hin).
Qed.

Lemma filter_fmap {A B} (f : A → B) (P : B → Prop) `{∀ y, Decision (P y)}
    (l : list A) :
  filter P (f <$> l) = f <$> filter (P ∘ f) l.
Proof.
  induction l as [|x l IH]; csimpl; [done|].
  rewrite !filter_cons, IH. simpl. by case_decide.
Qed.

Lemma head_filter_list_find {A} (P : A → Prop) `{∀ x, Decision (P x)}
    (l : list A) :
  head (filter P l) = snd <$> list_find P l.
Proof.
  induction l as [|x l IH]; csimpl; [done|].
  rewrite filter_cons. case_decide; [done|].
  rewrite IH. by destruct (list_find P l) as [[??]|].
Qed.

Lemma grouped_offers_eq offers :
  grouped_offers offers
  = (λ k, (k, filter (λ offer, dup_key offer = k) offers))
      <$> first_occurrences (dup_key <$> offers).
Proof. apply group_by_spec. Qed.

Lemma duplicate_groups_eq offers :
  duplicate_groups offers
  = (λ k, (k, filter (λ offer, dup_key offer = k) offers))
      <$> duplicate_keys offers.
Proof.
  unfold duplicate_groups, duplicate_keys.
  by rewrite grouped_offers_eq, filter_fmap.
Qed.

Lemma values_duplicate_groups offers :
  values (duplicate_groups offers)
  = (λ k, filter (λ offer, dup_key offer = k) offers) <$> duplicate_keys offers.
Proof. by rewrite duplicate_groups_eq, <-list_fmap_compose. Qed.

Lemma keys_duplicate_groups offers :
  keys (duplicate_groups offers) = duplicate_keys offers.
Proof.
  rewrite duplicate_groups_eq, <-list_fmap_compose. apply list_fmap_id.
Qed.

Lemma extra_rows_eq offers :
  sum_list ((λ rows : list row, length rows - 1) <$> values (duplicate_groups offers))
  = sum_list ((λ k, group_size offers k - 1) <$> duplicate_keys offers).
Proof. by rewrite values_duplicate_groups, <-list_fmap_compose. Qed.

Lemma sorted_duplicate_groups offers :
  sorted_reverse length (values (duplicate_groups offers))
  = (λ k, filter (λ offer, dup_key offer = k) offers)
      <$> sorted_reverse (group_size offers) (duplicate_keys offers).
Proof. by rewrite values_duplicate_groups, sorted_reverse_fmap. Qed.

Lemma duplicate_sample_group offers k :
  duplicate_sample (filter (λ offer, dup_key offer = k) offers)
  = duplicate_entry offers k.
Proof.
  unfold duplicate_sample, duplicate_entry, first_row.
  by rewrite head_filter_list_find.
Qed.

Lemma elem_of_duplicate_keys offers k :
  k ∈ duplicate_keys offers ↔ 1 < group_size offers k.
Proof.
  unfold duplicate_keys.
  rewrite list_elem_of_filter, elem_of_first_occurrences.
  split; [tauto|]. intros Hk. split; [done|].
  unfold group_size in Hk.
  destruct (filter _ offers) as [|offer ?] eqn:Hf; [simpl in Hk; lia|].
  assert (offer ∈ filter (λ offer, dup_key offer = k) offers) as Hin
    by (rewrite Hf; left).
  apply list_elem_of_filter in Hin as [<- Hin]. by apply list_elem_of_fmap_2.
Qed.

Lemma duplicate_entry_is_Some offers k :
  0 < group_size offers k → is_Some (duplicate_entry offers k).
Proof.
  intros Hk. rewrite <-duplicate_sample_group. unfold duplicate_sample.
  unfold group_size in Hk.
  destruct (filter _ offers); [simpl in Hk; lia|]. simpl. eauto.
Qed.

Lemma top_duplicate_groups_success offers :
  ∃ top,
    mapM duplicate_sample
      (take 10 (sorted_reverse length (values (duplicate_groups offers))))
    = Some top
    ∧ Forall2 (λ k entry, duplicate_entry offers k = Some entry)
        (take 10 (sorted_reverse (group_size offers) (duplicate_keys offers)))
        top.
Proof.
  rewrite sorted_duplicate_groups, <-fmap_take.
  assert (Forall (λ k, is_Some (duplicate_entry offers k))
            (take 10 (sorted_reverse (group_size offers) (duplicate_keys offers))))
    as Hsome.
  { apply Forall_forall. intros k Hk%subseteq_take.
    rewrite sorted_reverse_Permutation in Hk.
    apply elem_of_duplicate_keys in Hk. apply duplicate_entry_is_Some. lia. }
  assert (∃ top, Forall2 (λ k entry, duplicate_entry offers k = Some entry)
            (take 10 (sorted_reverse (group_size offers) (duplicate_keys offers)))
            top) as [top Htop].
  { induction Hsome as [|k ks [entry Hk] _ [top IH]].
    - exists []. constructor.
    - exists (entry :: top). by constructor. }
  exists top. split; [|done].
  apply mapM_Some, Forall2_fmap_l.
  eapply Forall2_impl; [exact Htop|].
  intros k entry Hk. simpl. by rewrite duplicate_sample_group.
Qed.

(** When the funnels source exposes [id], [main] returns a report, and
    every entry of the report is the following function of the two
    datasets. *)
Lemma main_success funnels offers :
  funnels_expose_id funnels →
  ∃ top,
    Forall2 (λ k entry, duplicate_entry offers k = Some entry)
      (take 10 (sorted_reverse (group_size offers) (duplicate_keys offers))) top
    ∧ main funnels offers = Some {|
        Report.totals :=
          {| Totals.funnels := length funnels; Totals.offers := length offers |};
        Report.integrity :=
          {| Integrity.offers_missing_funnel_id :=
               length (filter funnel_id_missing offers);
             Integrity.offers_with_invalid_funnel_id :=
               length (filter (funnel_id_invalid funnels) offers);
             Integrity.offers_missing_project_id :=
               length (missing_project_rows offers);
             Integrity.offers_missing_nome_produto :=
               length (missing_product_rows offers);
             Integrity.offers_missing_nome_oferta :=
               length (missing_offer_rows offers);
             Integrity.funnels_without_offers :=
               length (funnels_with_no_offer funnels offers) |};
        Report.duplicates :=
          {| Duplicates.groups := length (duplicate_keys offers);
             Duplicates.extra_rows :=
               sum_list ((λ k, group_size offers k - 1) <$> duplicate_keys offers) |};
        Report.semantics :=
          {| Semantics.generic_offer_names := length (generic_offers offers);
             Semantics.by_origem :=
               Counter ((λ row, value_or (get row "origem") "(vazio)") <$> offers) |};
        Report.samples :=
          {| Samples.invalid_funnel_ids :=
               Counter ((λ row, get row "funnel_id")
                          <$> filter (funnel_id_invalid funnels) offers);
             Samples.funnels_without_offers :=
               (λ funnel, {| FunnelSample.id := get funnel "id";
                             FunnelSample.name := get_default funnel "name" "" |})
                 <$> take 10 (funnels_with_no_offer funnels offers);
             Samples.top_duplicate_groups := top |};
        Report.remediation := remediation |}.
Proof.
  intros Hid.
  destruct (top_duplicate_groups_success offers) as (top & Htop & Hentries).
  exists top. split; [done|]. unfold main.
  rewrite (funnel_ids_success _ Hid). simpl.
  rewrite invalid_funnel_rows_success. simpl.
  rewrite offers_by_funnel_success. simpl.
  rewrite (funnels_without_offers_success _ _ Hid). simpl.
  rewrite invalid_funnel_ids_success. simpl.
  rewrite (funnel_sample_success _ _ Hid). simpl.
  rewrite Htop. simpl.
  rewrite missing_funnel_rows_eq, extra_rows_eq.
  by rewrite <-keys_duplicate_groups, length_fmap.
Qed.

Lemma main_Some funnels offers report :
  main funnels offers = Some report → funnels_expose_id funnels.
Proof.
  unfold main. destruct (funnel_ids funnels) as [ids|] eqn:Hids; [|done].
  intros _. by eapply funnel_ids_Some.
Qed.

(** ** Integrity counts *)

Lemma length_filter_disjoint {A} (P Q : A → Prop)
    `{∀ x, Decision (P x), ∀ x, Decision (Q x)} (l : list A) :
  (∀ x, ¬ (P x ∧ Q x)) →
  length (filter P l) + length (filter Q l) ≤ length l.
Proof.
  intros HPQ. induction l as [|x l IH]; [done|].
  rewrite !filter_cons. specialize (HPQ x).
  destruct (decide (P x)), (decide (Q x)); simpl; lia || tauto.
Qed.

Lemma missing_invalid_exclusive funnels offer :
  ¬ (funnel_id_missing offer ∧ funnel_id_invalid funnels offer).
Proof.
  unfold funnel_id_missing, funnel_id_invalid.
  destruct (offer !! "funnel_id") as [[s|]|]; [|tauto..].
  intros [[?|[?|?]] [? _]]; congruence.
Qed.

Lemma sample_funnels_expose_id : funnels_expose_id sample_funnels.
Proof. repeat constructor; by eexists. Qed.

(** C1. An offer row counts as missing its funnel id exactly when its
    [funnel_id] is empty or absent, and as having an invalid funnel id
    exactly when its [funnel_id] is a non-empty string equal to the [id] of
    no funnel row (equality of the raw strings); no row is both, and the
    two counts together do not exceed the number of offer rows. *)
Theorem missing_and_invalid_funnel_id_counts funnels offers :
  funnels_expose_id funnels →
  ∃ report,
    main funnels offers = Some report
    ∧ Integrity.offers_missing_funnel_id (Report.integrity report)
      = length (filter funnel_id_missing offers)
    ∧ Integrity.offers_with_invalid_funnel_id (Report.integrity report)
      = length (filter (funnel_id_invalid funnels) offers)
    ∧ (∀ offer, ¬ (funnel_id_missing offer ∧ funnel_id_invalid funnels offer))
    ∧ Totals.offers (Report.totals report) = length offers
    ∧ Integrity.offers_missing_funnel_id (Report.integrity report)
      + Integrity.offers_with_invalid_funnel_id (Report.integrity report)
      ≤ Totals.offers (Report.totals report).
Proof.
  intros Hid. destruct (main_success funnels offers Hid) as (top & _ & Hmain).
  eexists. split; [exact Hmain|]. simpl.
  repeat split; try done.
  - apply missing_invalid_exclusive.
  - apply length_filter_disjoint, missing_invalid_exclusive.
Qed.

Lemma missing_and_invalid_funnel_id_counts_witness :
  funnels_expose_id sample_funnels
  ∧ ∃ report,
      main sample_funnels sample_offers = Some report
      ∧ Integrity.offers_missing_funnel_id (Report.integrity report)
        = length (filter funnel_id_missing sample_offers)
      ∧ Integrity.offers_with_invalid_funnel_id (Report.integrity report)
        = length (filter (funnel_id_invalid sample_funnels) sample_offers)
      ∧ (∀ offer,
           ¬ (funnel_id_missing offer ∧ funnel_id_invalid sample_funnels offer))
      ∧ Totals.offers (Report.totals report) = length sample_offers
      ∧ Integrity.offers_missing_funnel_id (Report.integrity report)
        + Integrity.offers_with_invalid_funnel_id (Report.integrity report)
        ≤ Totals.offers (Report.totals report).
Proof.
  split; [exact sample_funnels_expose_id|].
  exact (missing_and_invalid_funnel_id_counts
           sample_funnels sample_offers sample_funnels_expose_id).
Defined.

(** The funnel ids are compared as they are: an offer whose [funnel_id]
    differs from a funnel's [id] in case only has an invalid reference. *)
Example funnel_id_compared_exactly :
  funnel_id_invalid [ {[ "id" := Some "F1" ]} ] {[ "funnel_id" := Some "f1" ]}.
Proof.
  unfold funnel_id_invalid. rewrite lookup_singleton_eq. split; [done|].
  unfold funnel_id_values, get. simpl. rewrite lookup_singleton_eq. simpl.
  by intros [[=]|[]%elem_of_nil]%elem_of_cons.
Qed.

(** ** Generic offer names *)

(** C7. An offer row counts as a generic offer exactly when [normalize]
    of its [nome_oferta] is one of the three placeholder labels; hence a
    [nome_oferta] that differs from a label only in letter case or in the
    lengths of whitespace runs is counted. *)
Theorem generic_offer_names_count funnels offers :
  funnels_expose_id funnels →
  ∃ report,
    main funnels offers = Some report
    ∧ Semantics.generic_offer_names (Report.semantics report)
      = length (filter (λ offer,
                  normalize (get offer "nome_oferta") = "auto-importado"
                  ∨ normalize (get offer "nome_oferta")
                    = "auto-importado de vendas existentes"
                  ∨ normalize (get offer "nome_oferta") = "importado das vendas")
                offers)
    ∧ ∀ offer name label,
        get offer "nome_oferta" = Some name →
        label = "auto-importado"
        ∨ label = "auto-importado de vendas existentes"
        ∨ label = "importado das vendas" →
        differ_only_in_case_or_space_runs name label →
        normalize (get offer "nome_oferta") = label.
Proof.
  intros Hid. destruct (main_success funnels offers Hid) as (top & _ & Hmain).
  eexists. split; [exact Hmain|]. simpl. split.
  - unfold generic_offers. f_equal. apply list_filter_iff. intros offer.
    unfold generic_offer_names. rewrite !elem_of_union, !elem_of_singleton.
    tauto.
  - intros offer name label -> Hlabel Hdiff.
    rewrite (normalize_cosmetic _ _ Hdiff).
    by destruct Hlabel as [->|[->| ->]].
Qed.

Lemma generic_offer_names_count_witness :
  funnels_expose_id sample_funnels
  ∧ (∃ report,
       main sample_funnels sample_offers = Some report
       ∧ Semantics.generic_offer_names (Report.semantics report) = 1)
  ∧ differ_only_in_case_or_space_runs "Auto-Importado" "auto-importado"
  ∧ normalize (get {[ "nome_oferta" := Some "Auto-Importado" ]} "nome_oferta")
    = "auto-importado".
Proof.
  destruct (generic_offer_names_count
              sample_funnels sample_offers sample_funnels_expose_id)
    as (report & Hmain & Hcount & Hlabels).
  assert (differ_only_in_case_or_space_runs "Auto-Importado" "auto-importado")
    as Hdiff.
  { unfold differ_only_in_case_or_space_runs.
    eapply rtc_l.
    { left. apply (step_case [] "A" "a" (list_ascii_of_string "uto-Importado")).
      reflexivity. }
    eapply rtc_l.
    { left. apply (step_case (list_ascii_of_string "auto-") "I" "i"
                     (list_ascii_of_string "mportado")).
      reflexivity. }
    apply rtc_refl. }
  split; [exact sample_funnels_expose_id|].
  split; [exists report; split; [exact Hmain|by rewrite Hcount]|].
  split; [exact Hdiff|].
  apply (Hlabels _ "Auto-Importado"); [reflexivity|by left|exact Hdiff].
Defined.

(** ** The sample scenario and the empty datasets *)

(** C8. On the sample scenario the report has 2 funnels and 3 offers, one
    offer without funnel id, one offer with an invalid funnel id (F9),
    one funnel without offers (F2) and one generic offer name (the row
    named "Auto-Importado"). *)
Theorem sample_scenario_report :
  ∃ report,
    main sample_funnels sample_offers = Some report
    ∧ Report.totals report = {| Totals.funnels := 2; Totals.offers := 3 |}
    ∧ Integrity.offers_missing_funnel_id (Report.integrity report) = 1
    ∧ Integrity.offers_with_invalid_funnel_id (Report.integrity report) = 1
    ∧ Samples.invalid_funnel_ids (Report.samples report) = [(Some "F9", 1)]
    ∧ Integrity.funnels_without_offers (Report.integrity report) = 1
    ∧ Samples.funnels_without_offers (Report.samples report)
      = [ {| FunnelSample.id := Some "F2"; FunnelSample.name := Some "Lead" |} ]
    ∧ Semantics.generic_offer_names (Report.semantics report) = 1
    ∧ generic_offers sample_offers
      = [ {[ "project_id" := Some "P1"; "funnel_id" := Some "F1";
             "nome_produto" := Some "X"; "nome_oferta" := Some "Auto-Importado" ]} ].
Proof.
  eexists. split; [by vm_compute|]. simpl.
  repeat split; by vm_compute.
Qed.

(** C9. With no funnel row and no offer row every count of the report is
    zero, [by_origem] is empty, and the three remediation query templates
    are present verbatim; the templates are the same for every pair of
    datasets. *)
Theorem empty_datasets_report :
  main [] []
  = Some {|
      Report.totals := {| Totals.funnels := 0; Totals.offers := 0 |};
      Report.integrity :=
        {| Integrity.offers_missing_funnel_id := 0;
           Integrity.offers_with_invalid_funnel_id := 0;
           Integrity.offers_missing_project_id := 0;
           Integrity.offers_missing_nome_produto := 0;
           Integrity.offers_missing_nome_oferta := 0;
           Integrity.funnels_without_offers := 0 |};
      Report.duplicates := {| Duplicates.groups := 0; Duplicates.extra_rows := 0 |};
      Report.semantics :=
        {| Semantics.generic_offer_names := 0; Semantics.by_origem := [] |};
      Report.samples :=
        {| Samples.invalid_funnel_ids := [];
           Samples.funnels_without_offers := [];
           Samples.top_duplicate_groups := [] |};
      Report.remediation :=
        {| Remediation.check_invalid_funnel_sql :=
             "SELECT om.project_id, om.funnel_id, COUNT(*) FROM public.offer_mappings om LEFT JOIN public.funnels f ON f.id = om.funnel_id WHERE om.funnel_id IS NOT NULL AND f.id IS NULL GROUP BY om.project_id, om.funnel_id ORDER BY COUNT(*) DESC;";
           Remediation.backfill_by_legacy_name_sql :=
             "UPDATE public.offer_mappings om SET funnel_id = f.id, updated_at = now() FROM public.funnels f WHERE om.project_id = f.project_id AND om.funnel_id IS NULL AND om.id_funil IS NOT NULL AND btrim(lower(om.id_funil)) = btrim(lower(f.name));";
           Remediation.reassign_invalid_funnel_sql_template :=
             "UPDATE public.offer_mappings om SET funnel_id = :target_funnel_id::uuid, updated_at = now() WHERE om.project_id = :project_id::uuid AND (om.funnel_id IS NULL OR NOT EXISTS (SELECT 1 FROM public.funnels f WHERE f.id = om.funnel_id));" |} |}
  ∧ ∀ funnels offers report,
      main funnels offers = Some report →
      Report.remediation report = remediation.
Proof.
  split; [by vm_compute|].
  intros funnels offers report Hmain.
  destruct (main_success funnels offers (main_Some _ _ _ Hmain))
    as (top & _ & Hmain').
  rewrite Hmain' in Hmain. by injection Hmain as <-.
Qed.

Lemma empty_datasets_report_witness :
  ∃ report,
    main sample_funnels sample_offers = Some report
    ∧ Report.remediation report = remediation.
Proof.
  destruct (main_success sample_funnels sample_offers sample_funnels_expose_id)
    as (top & _ & Hmain).
  eexists. split; [exact Hmain|].
  exact (proj2 empty_datasets_report sample_funnels sample_offers _ Hmain).
Defined.

(** ** Funnels without offers *)

Lemma length_filter_complement {A} (P : A → Prop) `{∀ x, Decision (P x)}
    (l : list A) :
  length (filter P l) + length (filter (λ x, ¬ P x) l) = length l.
Proof. by rewrite <-length_app, filter_app_complement. Qed.

Lemma funnels_with_offers_count funnels offers :
  NoDup (funnel_id_values funnels) →
  length (filter (λ funnel, ¬ (get funnel "id" ∉ offer_funnel_ids offers)) funnels)
  = size (funnel_ids_with_offers funnels offers).
Proof.
  intros Hnd. unfold funnel_ids_with_offers.
  assert (list_to_set (funnel_id_values funnels)
            ∩ list_to_set (offer_funnel_ids offers)
          = (list_to_set (filter (λ v, v ∈ offer_funnel_ids offers)
                            (funnel_id_values funnels)) : gset value)) as ->.
  { apply set_eq. intros v.
    rewrite elem_of_intersection, !elem_of_list_to_set, list_elem_of_filter.
    tauto. }
  rewrite size_list_to_set by by apply NoDup_filter.
  unfold funnel_id_values. rewrite filter_fmap, length_fmap. f_equal.
  apply list_filter_iff. intros funnel. simpl.
  destruct (decide (get funnel "id" ∈ offer_funnel_ids offers)); tauto.
Qed.

(** C2, as the code has it.  The funnels reported as without offers are
    exactly the funnel rows whose [id] is the non-empty [funnel_id] of no
    offer row; and when no two funnel rows share an [id], their number plus
    the number of distinct funnel ids that some offer row refers to is the
    number of funnel rows. *)
Theorem funnels_without_offers_partition funnels offers :
  funnels_expose_id funnels →
  ∃ report,
    main funnels offers = Some report
    ∧ (∃ by_funnel,
         offers_by_funnel offers = Some by_funnel
         ∧ funnels_without_offers by_funnel funnels
           = Some (filter (λ funnel, get funnel "id" ∉ offer_funnel_ids offers)
                     funnels))
    ∧ Integrity.funnels_without_offers (Report.integrity report)
      = length (filter (λ funnel, get funnel "id" ∉ offer_funnel_ids offers)
                  funnels)
    ∧ (NoDup (funnel_id_values funnels) →
       Integrity.funnels_without_offers (Report.integrity report)
       + size (funnel_ids_with_offers funnels offers)
       = Totals.funnels (Report.totals report)).
Proof.
  intros Hid. destruct (main_success funnels offers Hid) as (top & _ & Hmain).
  eexists. split; [exact Hmain|]. simpl. split; [|split; [done|]].
  - eexists. split; [apply offers_by_funnel_success|].
    by apply funnels_without_offers_success.
  - intros Hnd. rewrite <-funnels_with_offers_count by done.
    apply length_filter_complement.
Qed.

Lemma sample_funnel_ids_NoDup : NoDup (funnel_id_values sample_funnels).
Proof. apply (bool_decide_unpack _). by vm_compute. Qed.

Lemma funnels_without_offers_partition_witness :
  funnels_expose_id sample_funnels
  ∧ NoDup (funnel_id_values sample_funnels)
  ∧ ∃ report,
      main sample_funnels sample_offers = Some report
      ∧ Integrity.funnels_without_offers (Report.integrity report)
        + size (funnel_ids_with_offers sample_funnels sample_offers)
        = Totals.funnels (Report.totals report).
Proof.
  split; [exact sample_funnels_expose_id|].
  split; [exact sample_funnel_ids_NoDup|].
  destruct (funnels_without_offers_partition
              sample_funnels sample_offers sample_funnels_expose_id)
    as (report & Hmain & _ & _ & Hsum).
  exists report. split; [exact Hmain|].
  exact (Hsum sample_funnel_ids_NoDup).
Defined.

(** C2, as stated, fails when two funnel rows share an [id]: with twice
    the funnel F1 and one offer of F1 no funnel is without offers and one
    funnel id has offers, yet there are two funnel rows. *)
Lemma funnels_without_offers_partition_counterexample :
  ∃ report,
    main twin_funnels one_offer = Some report
    ∧ Integrity.funnels_without_offers (Report.integrity report) = 0
    ∧ size (funnel_ids_with_offers twin_funnels one_offer) = 1
    ∧ size (list_to_set (offer_funnel_ids one_offer) : gset value) = 1
    ∧ Totals.funnels (Report.totals report) = 2
    ∧ Integrity.funnels_without_offers (Report.integrity report)
      + size (funnel_ids_with_offers twin_funnels one_offer)
      ≠ Totals.funnels (Report.totals report).
Proof.
  eexists. split; [by vm_compute|]. simpl.
  assert (size (funnel_ids_with_offers twin_funnels one_offer) = 1) as ->
    by by vm_compute.
  repeat split; by vm_compute.
Qed.

(** ** Duplicate groups *)

Lemma sum_list_fmap_add {A} (f g : A → nat) (l : list A) :
  sum_list ((λ x, f x + g x) <$> l) = sum_list (f <$> l) + sum_list (g <$> l).
Proof. induction l as [|x l IH]; csimpl; [done|]. rewrite IH. lia. Qed.

Lemma sum_list_fmap_ext {A} (f g : A → nat) (l : list A) :
  (∀ x, x ∈ l → f x = g x) → sum_list (f <$> l) = sum_list (g <$> l).
Proof.
  induction l as [|x l IH]; intros Hfg; csimpl; [done|].
  rewrite Hfg by left. rewrite IH; [done|]. intros; apply Hfg; by right.
Qed.

(** The groups of a list by key, one per key of [ks], share out the
    list. *)
Lemma sum_list_group_sizes {A K} `{EqDecision K} (key : A → K)
    (l : list A) (ks : list K) :
  NoDup ks → (∀ x, x ∈ l → key x ∈ ks) →
  sum_list ((λ k, length (filter (λ x, key x = k) l)) <$> ks) = length l.
Proof.
  intros Hnd. induction l as [|x l IH]; intros Hks.
  - clear. induction ks as [|k ks IHks]; [done|]. exact IHks.
  - rewrite (sum_list_fmap_ext _
               (λ k, (if decide (key x = k) then 1 else 0)
                     + length (filter (λ x, key x = k) l))).
    + rewrite sum_list_fmap_add, sum_list_indicator, IH; [done|..].
      * intros; apply Hks; by right.
      * done.
      * apply Hks; left.
    + intros k _. rewrite filter_cons. by case_decide.
Qed.

(** A sum over the elements that pass a filter is the sum over all
    elements when the others contribute nothing. *)
Lemma sum_list_fmap_filter {A} (f : A → nat) (P : A → Prop)
    `{∀ x, Decision (P x)} (l : list A) :
  (∀ x, x ∈ l → ¬ P x → f x = 0) →
  sum_list (f <$> filter P l) = sum_list (f <$> l).
Proof.
  induction l as [|x l IH]; intros Hf; [done|].
  rewrite filter_cons. csimpl. case_decide as HP; csimpl.
  - rewrite IH; [done|]. intros; apply Hf; [by right|done].
  - rewrite (Hf x) by (done || left). rewrite IH; [done|].
    intros; apply Hf; [by right|done].
Qed.

Lemma sum_list_fmap_pred {A} (f : A → nat) (l : list A) :
  (∀ x, x ∈ l → 0 < f x) →
  sum_list ((λ x, f x - 1) <$> l) + length l = sum_list (f <$> l).
Proof.
  induction l as [|x l IH]; intros Hf; csimpl; [done|].
  specialize (Hf x ltac:(left)) as Hx.
  specialize (IH ltac:(intros; apply Hf; by right)). lia.
Qed.

Lemma group_size_pos offers k :
  k ∈ dup_key <$> offers → 0 < group_size offers k.
Proof.
  intros (offer & -> & Hin)%list_elem_of_fmap. unfold group_size.
  assert (offer ∈ filter (λ offer', dup_key offer' = dup_key offer) offers)
    as Hf by by apply list_elem_of_filter.
  destruct (filter _ offers); [by apply elem_of_nil in Hf|simpl; lia].
Qed.

(** Extra rows and groups partition the offers. *)
Lemma extra_rows_plus_keys offers :
  sum_list ((λ k, group_size offers k - 1) <$> duplicate_keys offers)
  + length (first_occurrences (dup_key <$> offers))
  = length offers.
Proof.
  unfold duplicate_keys. rewrite sum_list_fmap_filter.
  - rewrite sum_list_fmap_pred.
    + apply sum_list_group_sizes; [apply NoDup_first_occurrences|].
      intros offer Hin. apply elem_of_first_occurrences.
      by apply list_elem_of_fmap_2.
    + intros k Hk. apply group_size_pos. by apply elem_of_first_occurrences.
  - intros k _ Hk. lia.
Qed.

Lemma length_first_occurrences {K} `{Countable K} (l : list K) :
  length (first_occurrences l) = size (list_to_set l : gset K).
Proof.
  rewrite <-(size_list_to_set (C:=gset K)) by apply NoDup_first_occurrences.
  f_equal. apply set_eq. intros k.
  by rewrite !elem_of_list_to_set, elem_of_first_occurrences.
Qed.

Lemma group_size_NoDup offers k :
  NoDup (dup_key <$> offers) → group_size offers k ≤ 1.
Proof.
  unfold group_size. induction offers as [|offer offers IH]; csimpl; [lia|].
  intros [Hnin Hnd]%NoDup_cons. rewrite filter_cons.
  case_decide as Hk; [|auto]. simpl.
  rewrite filter_none; [done|].
  intros offer' Hin Hk'. apply Hnin. rewrite Hk, <-Hk'.
  by apply list_elem_of_fmap_2.
Qed.

Lemma duplicate_keys_NoDup offers :
  NoDup (dup_key <$> offers) → duplicate_keys offers = [].
Proof.
  intros Hnd. unfold duplicate_keys. apply filter_none.
  intros k _. pose proof (group_size_NoDup offers k Hnd). lia.
Qed.

(** C3. [extra_rows] is the sum of (size - 1) over the groups of offer
    rows with equal normalised 4-tuple that have more than one row, and
    [groups] is the number of those groups; when no two offer rows share a
    normalised 4-tuple, both are 0. *)
Theorem duplicate_groups_and_extra_rows funnels offers :
  funnels_expose_id funnels →
  ∃ report,
    main funnels offers = Some report
    ∧ Duplicates.groups (Report.duplicates report)
      = length (filter (λ k, 1 < group_size offers k)
                  (first_occurrences (dup_key <$> offers)))
    ∧ Duplicates.extra_rows (Report.duplicates report)
      = sum_list ((λ k, group_size offers k - 1)
                    <$> filter (λ k, 1 < group_size offers k)
                          (first_occurrences (dup_key <$> offers)))
    ∧ (NoDup (dup_key <$> offers) →
       Duplicates.groups (Report.duplicates report) = 0
       ∧ Duplicates.extra_rows (Report.duplicates report) = 0).
Proof.
  intros Hid. destruct (main_success funnels offers Hid) as (top & _ & Hmain).
  eexists. split; [exact Hmain|]. simpl.
  split; [done|]. split; [done|].
  intros Hnd. by rewrite (duplicate_keys_NoDup _ Hnd).
Qed.

Lemma sample_offers_NoDup : NoDup (dup_key <$> sample_offers).
Proof. apply (bool_decide_unpack _). by vm_compute. Qed.

Lemma duplicate_groups_and_extra_rows_witness :
  funnels_expose_id sample_funnels
  ∧ NoDup (dup_key <$> sample_offers)
  ∧ ∃ report,
      main sample_funnels sample_offers = Some report
      ∧ Duplicates.groups (Report.duplicates report) = 0
      ∧ Duplicates.extra_rows (Report.duplicates report) = 0.
Proof.
  split; [exact sample_funnels_expose_id|].
  split; [exact sample_offers_NoDup|].
  destruct (duplicate_groups_and_extra_rows
              sample_funnels sample_offers sample_funnels_expose_id)
    as (report & Hmain & _ & _ & Hzero).
  exists report. split; [exact Hmain|]. exact (Hzero sample_offers_NoDup).
Defined.

(** Two rows equal up to case and spacing form one group of size 2. *)
Example duplicate_scenario :
  Report.duplicates
    <$> main sample_funnels [offer "Curso A" "Promo"; offer "curso  a " "PROMO"]
  = Some {| Duplicates.groups := 1; Duplicates.extra_rows := 1 |}.
Proof. by vm_compute. Qed.

(** C10. [extra_rows] is the number of offer rows minus the number of
    distinct normalised 4-tuples among them. *)
Theorem extra_rows_total_minus_distinct funnels offers :
  funnels_expose_id funnels →
  ∃ report,
    main funnels offers = Some report
    ∧ Duplicates.extra_rows (Report.duplicates report)
      = Totals.offers (Report.totals report)
        - size (list_to_set (dup_key <$> offers)
                : gset (string * string * string * string))
    ∧ size (list_to_set (dup_key <$> offers)
            : gset (string * string * string * string))
      ≤ Totals.offers (Report.totals report)
    ∧ Totals.offers (Report.totals report) = length offers.
Proof.
  intros Hid. destruct (main_success funnels offers Hid) as (top & _ & Hmain).
  eexists. split; [exact Hmain|]. simpl.
  pose proof (extra_rows_plus_keys offers) as Hsum.
  rewrite length_first_occurrences in Hsum. repeat split; lia.
Qed.

Lemma extra_rows_total_minus_distinct_witness :
  funnels_expose_id sample_funnels
  ∧ ∃ report,
      main sample_funnels duplicated_offers = Some report
      ∧ Duplicates.extra_rows (Report.duplicates report) = 8 - 4.
Proof.
  split; [exact sample_funnels_expose_id|].
  destruct (extra_rows_total_minus_distinct
              sample_funnels duplicated_offers sample_funnels_expose_id)
    as (report & Hmain & Hextra & _ & Hoffers).
  exists report. split; [exact Hmain|].
  rewrite Hextra, Hoffers. by vm_compute.
Defined.

(** ** Samples *)

(** C5. [top_duplicate_groups] has at most 10 entries.  They are the
    first 10 of a ranking of the duplicate groups that is ordered by
    descending size and in which groups of equal size keep the order in
    which their keys were first met in the offer rows; each entry carries
    the size of its group and the four fields of the first offer row, in
    input order, that belongs to the group. *)
Theorem top_duplicate_groups_ranking funnels offers :
  funnels_expose_id funnels →
  ∃ report ranked,
    main funnels offers = Some report
    ∧ length (Samples.top_duplicate_groups (Report.samples report)) ≤ 10
    ∧ ranked ≡ₚ duplicate_keys offers
    ∧ StronglySorted (λ k1 k2, group_size offers k2 ≤ group_size offers k1) ranked
    ∧ (∀ n, filter (λ k, group_size offers k = n) ranked
            = filter (λ k, group_size offers k = n) (duplicate_keys offers))
    ∧ Forall2 (λ k entry, duplicate_entry offers k = Some entry)
        (take 10 ranked)
        (Samples.top_duplicate_groups (Report.samples report)).
Proof.
  intros Hid.
  destruct (main_success funnels offers Hid) as (top & Htop & Hmain).
  eexists. exists (sorted_reverse (group_size offers) (duplicate_keys offers)).
  split; [exact Hmain|]. simpl. repeat split.
  - rewrite <-(Forall2_length _ _ _ Htop), length_take. lia.
  - apply sorted_reverse_Permutation.
  - apply sorted_reverse_sorted.
  - intros n. apply sorted_reverse_stable.
  - exact Htop.
Qed.

Lemma top_duplicate_groups_ranking_witness :
  funnels_expose_id sample_funnels
  ∧ ∃ report ranked,
      main sample_funnels duplicated_offers = Some report
      ∧ length (Samples.top_duplicate_groups (Report.samples report)) ≤ 10
      ∧ ranked ≡ₚ duplicate_keys duplicated_offers
      ∧ StronglySorted
          (λ k1 k2, group_size duplicated_offers k2 ≤ group_size duplicated_offers k1)
          ranked
      ∧ (∀ n, filter (λ k, group_size duplicated_offers k = n) ranked
              = filter (λ k, group_size duplicated_offers k = n)
                  (duplicate_keys duplicated_offers))
      ∧ Forall2 (λ k entry, duplicate_entry duplicated_offers k = Some entry)
          (take 10 ranked)
          (Samples.top_duplicate_groups (Report.samples report)).
Proof.
  split; [exact sample_funnels_expose_id|].
  exact (top_duplicate_groups_ranking
           sample_funnels duplicated_offers sample_funnels_expose_id).
Defined.

(** The largest group comes first; the two groups of size 2 keep the order
    in which the offer rows first showed them; each entry shows the first
    row of its group as it was written. *)
Example top_duplicate_groups_example :
  Samples.top_duplicate_groups ∘ Report.samples
    <$> main sample_funnels duplicated_offers
  = Some
      [ {| DuplicateSample.count := 3;
           DuplicateSample.project_id := Some "P1";
           DuplicateSample.funnel_id := Some "F1";
           DuplicateSample.nome_produto := Some "Curso C";
           DuplicateSample.nome_oferta := Some "Promo" |};
        {| DuplicateSample.count := 2;
           DuplicateSample.project_id := Some "P1";
           DuplicateSample.funnel_id := Some "F1";
           DuplicateSample.nome_produto := Some "Curso A";
           DuplicateSample.nome_oferta := Some "Promo" |};
        {| DuplicateSample.count := 2;
           DuplicateSample.project_id := Some "P1";
           DuplicateSample.funnel_id := Some "F1";
           DuplicateSample.nome_produto := Some "Curso B";
           DuplicateSample.nome_oferta := Some "Promo" |} ].
Proof. by vm_compute. Qed.

(** C4, as the code has it.  [samples.invalid_funnel_ids] is the whole
    [Counter]: it maps every distinct [funnel_id] of the offers with an
    invalid funnel reference, in the order of first occurrence, to its
    number of occurrences among those offers. *)
Theorem invalid_funnel_ids_sample_counts funnels offers :
  funnels_expose_id funnels →
  ∃ report,
    main funnels offers = Some report
    ∧ Samples.invalid_funnel_ids (Report.samples report)
      = (λ v, (v, occurrences v
                    ((λ offer, get offer "funnel_id")
                       <$> filter (funnel_id_invalid funnels) offers)))
          <$> first_occurrences
                ((λ offer, get offer "funnel_id")
                   <$> filter (funnel_id_invalid funnels) offers).
Proof.
  intros Hid. destruct (main_success funnels offers Hid) as (top & _ & Hmain).
  eexists. split; [exact Hmain|]. simpl. apply Counter_spec.
Qed.

Lemma invalid_funnel_ids_sample_counts_witness :
  funnels_expose_id sample_funnels
  ∧ ∃ report,
      main sample_funnels sample_offers = Some report
      ∧ Samples.invalid_funnel_ids (Report.samples report) = [(Some "F9", 1)].
Proof.
  split; [exact sample_funnels_expose_id|].
  destruct (invalid_funnel_ids_sample_counts
              sample_funnels sample_offers sample_funnels_expose_id)
    as (report & Hmain & Hsample).
  exists report. split; [exact Hmain|]. rewrite Hsample. by vm_compute.
Defined.

(** C4, as stated, fails: the mapping is not cut to 10 entries.  With
    eleven offers that refer to eleven different missing funnels it has
    eleven entries. *)
Lemma invalid_funnel_ids_sample_counterexample :
  ∃ report,
    main [] eleven_invalid_offers = Some report
    ∧ Integrity.offers_with_invalid_funnel_id (Report.integrity report) = 11
    ∧ Samples.invalid_funnel_ids (Report.samples report)
      = (λ s, (Some s, 1))
          <$> ["X01"; "X02"; "X03"; "X04"; "X05"; "X06"; "X07"; "X08"; "X09";
               "X10"; "X11"]
    ∧ ¬ (length (Samples.invalid_funnel_ids (Report.samples report)) ≤ 10).
Proof.
  eexists. split; [by vm_compute|]. simpl.
  split; [by vm_compute|]. split; [by vm_compute|].
  vm_compute. lia.
Qed.


(** * Further properties of the code *)

(** ** The result of [normalize] *)

Section normal_form.
Import Str.






Lemma scan_length s :
  length (scan AtStart s) ≤ length s
  ∧ length (scan InWord s) ≤ length s
  ∧ length (scan AfterSpace s) ≤ S (length s).
Proof.
  induction s as [|c t (IH0 & IH1 & IH2)]; simpl; [lia|].
  destruct (isspace c); simpl; lia.
Qed.
End normal_form.

Lemma string_of_list_ascii_length s :
  String.length (string_of_list_ascii s) = length s.
Proof. induction s as [|c s IH]; simpl; [done|]. by rewrite IH. Qed.



(** Below 256 [normalize] never makes a string longer. *)
Lemma normalize_length (v : value) :
  String.length (normalize v) ≤ String.length (or_empty v).
Proof.
  rewrite normalize_scan, string_of_list_ascii_length.
  rewrite <-(string_of_list_ascii_of_string (or_empty v)) at 2.
  rewrite string_of_list_ascii_length. apply scan_length.
Qed.

(** ** Errors of [main] *)

(** X4. [main] raises (a [KeyError], at line 30) exactly when some funnel
    row has no key [id]; no offer row can make it raise: the subscripts
    [row["funnel_id"]] are guarded and [rows[0]] is taken of groups that
    are not empty. *)
Theorem main_raises_iff funnels offers :
  main funnels offers = None
  ↔ ∃ funnel, funnel ∈ funnels ∧ funnel !! "id" = None.
Proof.
  split.
  - intros Hnone.
    destruct (decide (funnels_expose_id funnels)) as [Hid|Hid].
    + destruct (main_success funnels offers Hid) as (top & _ & Hmain).
      congruence.
    + apply not_Forall_Exists in Hid; [|apply _].
      apply Exists_exists in Hid as (funnel & Hin & Hno).
      exists funnel. split; [done|]. simpl in Hno.
      destruct (funnel !! "id"); [|done]. destruct Hno. eauto.
  - intros (funnel & Hin & Hno).
    destruct (main funnels offers) as [report|] eqn:Hmain; [|done].
    apply main_Some in Hmain. unfold funnels_expose_id in Hmain.
    rewrite Forall_forall in Hmain. destruct (Hmain _ Hin) as [v Hv].
    congruence.
Qed.

(** ** Integrity counts *)

Lemma truthy_iff_not_column_missing column (r : row) :
  ¬ truthy (get r column) ↔ column_missing column r.
Proof.
  unfold get, column_missing.
  destruct (r !! column) as [[s|]|]; simpl.
  - split.
    + intros Hs. right. right. f_equal. f_equal.
      destruct (decide (s = "")); [done|]. by destruct Hs.
    + intros [?|[?|?]] ?; congruence.
  - split; [by right; left|tauto].
  - split; [by left|tauto].
Qed.

Lemma missing_rows_eq column offers :
  missing_rows column offers = filter (column_missing column) offers.
Proof. apply list_filter_iff. intros r. apply truthy_iff_not_column_missing. Qed.

Lemma length_filter_three {A} (P Q R : A → Prop)
    `{∀ x, Decision (P x), ∀ x, Decision (Q x), ∀ x, Decision (R x)}
    (l : list A) :
  (∀ x, (P x ∧ ¬ Q x ∧ ¬ R x) ∨ (¬ P x ∧ Q x ∧ ¬ R x) ∨ (¬ P x ∧ ¬ Q x ∧ R x)) →
  length (filter P l) + length (filter Q l) + length (filter R l) = length l.
Proof.
  intros Hone. induction l as [|x l IH]; [done|].
  rewrite !filter_cons. specialize (Hone x).
  destruct (decide (P x)), (decide (Q x)), (decide (R x)); simpl; lia || tauto.
Qed.

Lemma funnel_id_trichotomy funnels offer :
  (funnel_id_missing offer ∧ ¬ funnel_id_invalid funnels offer
   ∧ ¬ funnel_id_valid funnels offer)
  ∨ (¬ funnel_id_missing offer ∧ funnel_id_invalid funnels offer
     ∧ ¬ funnel_id_valid funnels offer)
  ∨ (¬ funnel_id_missing offer ∧ ¬ funnel_id_invalid funnels offer
     ∧ funnel_id_valid funnels offer).
Proof.
  unfold funnel_id_missing, funnel_id_invalid, funnel_id_valid.
  destruct (offer !! "funnel_id") as [[s|]|].
  - destruct (decide (s = "")) as [->|Hs].
    + left. split; [by right; right|]. tauto.
    + right.
      assert (¬ (Some (Some s) = None ∨ Some (Some s) = Some None
                 ∨ Some (Some s) = Some (Some ""))) as Hnm
        by (intros [?|[?|?]]; congruence).
      destruct (decide (Some s ∈ funnel_id_values funnels)); tauto.
  - left. split; [by right; left|]. tauto.
  - left. split; [by left|]. tauto.
Qed.

(** X5. Every offer row is of exactly one kind: without funnel id, with an
    invalid funnel id, or with the id of a funnel; so the two reported
    counts and the number of offers that refer to a funnel add up to the
    number of offers. *)
Theorem offers_partition_by_funnel_id funnels offers :
  funnels_expose_id funnels →
  ∃ report,
    main funnels offers = Some report
    ∧ Integrity.offers_missing_funnel_id (Report.integrity report)
      + Integrity.offers_with_invalid_funnel_id (Report.integrity report)
      + length (filter (funnel_id_valid funnels) offers)
      = Totals.offers (Report.totals report).
Proof.
  intros Hid. destruct (main_success funnels offers Hid) as (top & _ & Hmain).
  eexists. split; [exact Hmain|]. simpl.
  apply length_filter_three, funnel_id_trichotomy.
Qed.

Lemma offers_partition_by_funnel_id_witness :
  funnels_expose_id sample_funnels
  ∧ ∃ report,
      main sample_funnels sample_offers = Some report
      ∧ Integrity.offers_missing_funnel_id (Report.integrity report)
        + Integrity.offers_with_invalid_funnel_id (Report.integrity report)
        + length (filter (funnel_id_valid sample_funnels) sample_offers)
        = Totals.offers (Report.totals report).
Proof.
  split; [exact sample_funnels_expose_id|].
  exact (offers_partition_by_funnel_id
           sample_funnels sample_offers sample_funnels_expose_id).
Defined.

(** X6. The three other integrity counts are the numbers of offer rows
    whose [project_id], [nome_produto] and [nome_oferta] are empty or
    absent; none exceeds the number of offers. *)
Theorem missing_column_counts funnels offers :
  funnels_expose_id funnels →
  ∃ report,
    main funnels offers = Some report
    ∧ Integrity.offers_missing_project_id (Report.integrity report)
      = length (filter (column_missing "project_id") offers)
    ∧ Integrity.offers_missing_nome_produto (Report.integrity report)
      = length (filter (column_missing "nome_produto") offers)
    ∧ Integrity.offers_missing_nome_oferta (Report.integrity report)
      = length (filter (column_missing "nome_oferta") offers)
    ∧ Integrity.offers_missing_project_id (Report.integrity report)
      ≤ Totals.offers (Report.totals report)
    ∧ Integrity.offers_missing_nome_produto (Report.integrity report)
      ≤ Totals.offers (Report.totals report)
    ∧ Integrity.offers_missing_nome_oferta (Report.integrity report)
      ≤ Totals.offers (Report.totals report).
Proof.
  intros Hid. destruct (main_success funnels offers Hid) as (top & _ & Hmain).
  eexists. split; [exact Hmain|]. simpl.
  unfold missing_project_rows, missing_product_rows, missing_offer_rows.
  rewrite !missing_rows_eq. repeat split; apply length_filter.
Qed.

Lemma missing_column_counts_witness :
  funnels_expose_id sample_funnels
  ∧ ∃ report,
      main sample_funnels sample_offers = Some report
      ∧ Integrity.offers_missing_project_id (Report.integrity report)
        = length (filter (column_missing "project_id") sample_offers).
Proof.
  split; [exact sample_funnels_expose_id|].
  destruct (missing_column_counts
              sample_funnels sample_offers sample_funnels_expose_id)
    as (report & Hmain & Hproject & _).
  exists report. by split.
Defined.

(** ** Counters *)

Lemma filter_nonempty_elem_of {A} (P : A → Prop) `{∀ x, Decision (P x)}
    (l : list A) :
  0 < length (filter P l) → ∃ x, x ∈ l ∧ P x.
Proof.
  destruct (filter P l) as [|x ?] eqn:Hf; [simpl; lia|]. intros _.
  assert (x ∈ filter P l) as Hin by (rewrite Hf; left).
  apply list_elem_of_filter in Hin. exists x. tauto.
Qed.

Lemma Counter_total {K} `{EqDecision K} (l : list K) :
  sum_list (values (Counter l)) = length l.
Proof.
  rewrite Counter_spec, <-list_fmap_compose.
  apply (sum_list_group_sizes id l (first_occurrences l)).
  - apply NoDup_first_occurrences.
  - intros k Hk. by apply elem_of_first_occurrences.
Qed.

Lemma occurrences_pos {K} `{EqDecision K} (k : K) (l : list K) :
  k ∈ l → 0 < occurrences k l.
Proof.
  intros Hk. unfold occurrences.
  assert (k ∈ filter (λ k', k' = k) l) as Hf by by apply list_elem_of_filter.
  destruct (filter _ l); [by apply elem_of_nil in Hf|simpl; lia].
Qed.

Lemma elem_of_Counter {K} `{EqDecision K} (k : K) (n : nat) (l : list K) :
  (k, n) ∈ Counter l ↔ k ∈ l ∧ n = occurrences k l.
Proof.
  rewrite Counter_spec, list_elem_of_fmap. split.
  - intros (k' & Heq & Hk). injection Heq as -> ->.
    split; [by apply elem_of_first_occurrences|done].
  - intros [Hk ->]. exists k. by rewrite elem_of_first_occurrences.
Qed.

Lemma occurrences_fmap {A K} `{EqDecision K} (f : A → K) (k : K) (l : list A) :
  occurrences k (f <$> l) = length (filter (λ x, f x = k) l).
Proof. unfold occurrences. by rewrite filter_fmap, length_fmap. Qed.

(** X7. The counts of [samples.invalid_funnel_ids] add up to
    [offers_with_invalid_funnel_id]; its keys are pairwise different,
    and each is a non-empty string that is the [id] of no funnel row. *)
Theorem invalid_funnel_ids_total funnels offers :
  funnels_expose_id funnels →
  ∃ report,
    main funnels offers = Some report
    ∧ sum_list (values (Samples.invalid_funnel_ids (Report.samples report)))
      = Integrity.offers_with_invalid_funnel_id (Report.integrity report)
    ∧ NoDup (keys (Samples.invalid_funnel_ids (Report.samples report)))
    ∧ ∀ v, v ∈ keys (Samples.invalid_funnel_ids (Report.samples report)) →
           ∃ s, v = Some s ∧ s ≠ "" ∧ v ∉ funnel_id_values funnels.
Proof.
  intros Hid. destruct (main_success funnels offers Hid) as (top & _ & Hmain).
  eexists. split; [exact Hmain|]. simpl. split; [|split].
  - by rewrite Counter_total, length_fmap.
  - rewrite keys_Counter. apply NoDup_first_occurrences.
  - intros v. rewrite keys_Counter, elem_of_first_occurrences.
    intros (offer & -> & [Hinv _]%list_elem_of_filter)%list_elem_of_fmap.
    unfold funnel_id_invalid in Hinv. unfold get.
    destruct (offer !! "funnel_id") as [[s|]|]; try done.
    exists s. simpl. tauto.
Qed.

Lemma invalid_funnel_ids_total_witness :
  funnels_expose_id sample_funnels
  ∧ ∃ report,
      main sample_funnels sample_offers = Some report
      ∧ sum_list (values (Samples.invalid_funnel_ids (Report.samples report)))
        = Integrity.offers_with_invalid_funnel_id (Report.integrity report).
Proof.
  split; [exact sample_funnels_expose_id|].
  destruct (invalid_funnel_ids_total
              sample_funnels sample_offers sample_funnels_expose_id)
    as (report & Hmain & Hsum & _).
  exists report. by split.
Defined.

Lemma origem_label_nonempty offer : origem_label offer ≠ "".
Proof.
  unfold origem_label, value_or.
  destruct (get offer "origem") as [s|]; [|done]. by case_decide.
Qed.

(** X8. [by_origem] counts every offer row once: its counts add up to the
    number of offers.  Its keys are pairwise different and never empty
    (an empty or absent [origem] is counted under "(vazio)"), and the
    count of a key is the number of offer rows with that label, which is
    at least 1. *)
Theorem by_origem_distribution funnels offers :
  funnels_expose_id funnels →
  ∃ report,
    main funnels offers = Some report
    ∧ sum_list (values (Semantics.by_origem (Report.semantics report)))
      = Totals.offers (Report.totals report)
    ∧ NoDup (keys (Semantics.by_origem (Report.semantics report)))
    ∧ ("" ∉ keys (Semantics.by_origem (Report.semantics report)))
    ∧ (∀ k n,
         ((k, n) ∈ Semantics.by_origem (Report.semantics report))
         ↔ (0 < n
            ∧ n = length (filter (λ offer, origem_label offer = k) offers))).
Proof.
  intros Hid. destruct (main_success funnels offers Hid) as (top & _ & Hmain).
  eexists. split; [exact Hmain|]. simpl.
  change (λ row : row, value_or (get row "origem") "(vazio)") with origem_label.
  split; [|split; [|split]].
  - by rewrite Counter_total, length_fmap.
  - rewrite keys_Counter. apply NoDup_first_occurrences.
  - rewrite keys_Counter, elem_of_first_occurrences.
    intros (offer & Hk & _)%list_elem_of_fmap.
    by eapply origem_label_nonempty.
  - intros k n. rewrite elem_of_Counter, occurrences_fmap. split.
    + intros [Hk ->]. split; [|done].
      rewrite <-occurrences_fmap. by apply occurrences_pos.
    + intros [Hpos ->]. split; [|done].
      apply filter_nonempty_elem_of in Hpos as (offer & Hin & <-).
      by apply list_elem_of_fmap_2.
Qed.

Lemma by_origem_distribution_witness :
  funnels_expose_id sample_funnels
  ∧ ∃ report,
      main sample_funnels sample_offers = Some report
      ∧ sum_list (values (Semantics.by_origem (Report.semantics report)))
        = Totals.offers (Report.totals report).
Proof.
  split; [exact sample_funnels_expose_id|].
  destruct (by_origem_distribution
              sample_funnels sample_offers sample_funnels_expose_id)
    as (report & Hmain & Hsum & _).
  exists report. by split.
Defined.

(** ** The sample of funnels without offers *)



(** ** Generic offers and duplicate groups *)

Lemma normalize_not_truthy v : ¬ truthy v → normalize v = "".
Proof.
  destruct v as [s|]; [|done]. simpl.
  destruct (decide (s = "")) as [->|]; [done|]. intros Hs. by destruct Hs.
Qed.

Lemma generic_not_missing (offer : row) :
  ¬ (normalize (get offer "nome_oferta") ∈ generic_offer_names
     ∧ ¬ truthy (get offer "nome_oferta")).
Proof.
  intros [Hgen Hmiss]. rewrite (normalize_not_truthy _ Hmiss) in Hgen.
  unfold generic_offer_names in Hgen.
  rewrite !elem_of_union, !elem_of_singleton in Hgen.
  by destruct Hgen as [[?|?]|?].
Qed.

(** X10. An offer row counted as a generic offer has a [nome_oferta]: no
    row counts both as generic and as missing its [nome_oferta], so the
    two counts together do not exceed the number of offers. *)
Theorem generic_offers_have_a_name funnels offers :
  funnels_expose_id funnels →
  ∃ report,
    main funnels offers = Some report
    ∧ (∀ offer, offer ∈ generic_offers offers →
                ¬ column_missing "nome_oferta" offer)
    ∧ Semantics.generic_offer_names (Report.semantics report)
      + Integrity.offers_missing_nome_oferta (Report.integrity report)
      ≤ Totals.offers (Report.totals report).
Proof.
  intros Hid. destruct (main_success funnels offers Hid) as (top & _ & Hmain).
  eexists. split; [exact Hmain|]. simpl. split.
  - intros offer [Hgen _]%list_elem_of_filter Hmiss.
    apply truthy_iff_not_column_missing in Hmiss.
    by apply (generic_not_missing offer).
  - apply length_filter_disjoint, generic_not_missing.
Qed.

Lemma generic_offers_have_a_name_witness :
  funnels_expose_id sample_funnels
  ∧ ∃ report,
      main sample_funnels sample_offers = Some report
      ∧ Semantics.generic_offer_names (Report.semantics report)
        + Integrity.offers_missing_nome_oferta (Report.integrity report)
        ≤ Totals.offers (Report.totals report).
Proof.
  split; [exact sample_funnels_expose_id|].
  destruct (generic_offers_have_a_name
              sample_funnels sample_offers sample_funnels_expose_id)
    as (report & Hmain & _ & Hle).
  exists report. by split.
Defined.

Lemma sum_list_fmap_ge {A} (f : A → nat) (l : list A) :
  (∀ x, x ∈ l → 1 ≤ f x) → length l ≤ sum_list (f <$> l).
Proof.
  induction l as [|x l IH]; intros Hf; csimpl; [done|].
  specialize (Hf x ltac:(left)) as Hx.
  specialize (IH ltac:(intros; apply Hf; by right)). lia.
Qed.

(** X11. Every duplicate group has at least one extra row, and the extra
    rows and the groups together are at most the offers: [groups] is at
    most [extra_rows], and [extra_rows + groups] at most the number of
    offers. *)
Theorem duplicate_counts_bounds funnels offers :
  funnels_expose_id funnels →
  ∃ report,
    main funnels offers = Some report
    ∧ Duplicates.groups (Report.duplicates report)
      ≤ Duplicates.extra_rows (Report.duplicates report)
    ∧ Duplicates.extra_rows (Report.duplicates report)
      + Duplicates.groups (Report.duplicates report)
      ≤ Totals.offers (Report.totals report).
Proof.
  intros Hid. destruct (main_success funnels offers Hid) as (top & _ & Hmain).
  eexists. split; [exact Hmain|]. simpl. split.
  - apply sum_list_fmap_ge. intros k Hk%elem_of_duplicate_keys. lia.
  - pose proof (extra_rows_plus_keys offers) as Hsum.
    assert (length (duplicate_keys offers)
            ≤ length (first_occurrences (dup_key <$> offers)))
      by apply length_filter.
    lia.
Qed.

Lemma duplicate_counts_bounds_witness :
  funnels_expose_id sample_funnels
  ∧ ∃ report,
      main sample_funnels duplicated_offers = Some report
      ∧ Duplicates.groups (Report.duplicates report)
        ≤ Duplicates.extra_rows (Report.duplicates report)
      ∧ Duplicates.extra_rows (Report.duplicates report)
        + Duplicates.groups (Report.duplicates report)
        ≤ Totals.offers (Report.totals report).
Proof.
  split; [exact sample_funnels_expose_id|].
  exact (duplicate_counts_bounds
           sample_funnels duplicated_offers sample_funnels_expose_id).
Defined.

(** ** The largest duplicate groups *)

Lemma duplicate_entry_count offers k entry :
  duplicate_entry offers k = Some entry →
  DuplicateSample.count entry = group_size offers k.
Proof.
  unfold duplicate_entry. destruct (first_row offers k); simpl; [|done].
  by intros [= <-].
Qed.

Lemma sorted_reverse_head_max {A} (key : A → nat) (l : list A) x :
  head (sorted_reverse key l) = Some x → ∀ y, y ∈ l → key y ≤ key x.
Proof.
  intros Hhead y Hy. rewrite <-(sorted_reverse_Permutation key) in Hy.
  pose proof (sorted_reverse_sorted key l) as Hsorted.
  destruct (sorted_reverse key l) as [|z s]; simplify_eq/=.
  apply StronglySorted_inv in Hsorted as [_ Hall].
  apply elem_of_cons in Hy as [->|Hy]; [done|].
  rewrite Forall_forall in Hall. by apply Hall.
Qed.

(** X13. [top_duplicate_groups] has min(10, [groups]) entries, every
    entry counts at least 2 rows, and the first entry is a largest group:
    no normalised 4-tuple is shared by more offer rows than it counts. *)
Theorem top_duplicate_groups_largest funnels offers :
  funnels_expose_id funnels →
  ∃ report,
    main funnels offers = Some report
    ∧ length (Samples.top_duplicate_groups (Report.samples report))
      = 10 `min` Duplicates.groups (Report.duplicates report)
    ∧ Forall (λ entry, 2 ≤ DuplicateSample.count entry)
        (Samples.top_duplicate_groups (Report.samples report))
    ∧ ∀ entry,
        head (Samples.top_duplicate_groups (Report.samples report)) = Some entry →
        ∀ k, group_size offers k ≤ DuplicateSample.count entry.
Proof.
  intros Hid.
  destruct (main_success funnels offers Hid) as (top & Htop & Hmain).
  eexists. split; [exact Hmain|]. cbn -[Nat.min]. split; [|split].
  - rewrite <-(Forall2_length _ _ _ Htop), length_take.
    f_equal. apply Permutation_length, sorted_reverse_Permutation.
  - eapply Forall2_Forall_r; [exact Htop|].
    apply Forall_forall. intros k Hk%subseteq_take entry Hentry.
    rewrite sorted_reverse_Permutation in Hk.
    apply elem_of_duplicate_keys in Hk.
    rewrite (duplicate_entry_count _ _ _ Hentry). lia.
  - intros entry Hhead k.
    destruct top as [|entry' top']; simplify_eq/=.
    destruct (sorted_reverse (group_size offers) (duplicate_keys offers))
      as [|k0 ranked] eqn:Hranked; [by apply Forall2_nil_cons_inv in Htop|].
    simpl in Htop. apply Forall2_cons_1 in Htop as [Hentry _].
    rewrite (duplicate_entry_count _ _ _ Hentry).
    assert (k0 ∈ duplicate_keys offers) as Hk0.
    { rewrite <-(sorted_reverse_Permutation (group_size offers)), Hranked. left. }
    apply elem_of_duplicate_keys in Hk0.
    destruct (decide (1 < group_size offers k)) as [Hk|Hk]; [|lia].
    apply elem_of_duplicate_keys in Hk.
    apply (sorted_reverse_head_max (group_size offers) (duplicate_keys offers));
      [by rewrite Hranked|done].
Qed.

Lemma top_duplicate_groups_largest_witness :
  funnels_expose_id sample_funnels
  ∧ ∃ report,
      main sample_funnels duplicated_offers = Some report
      ∧ length (Samples.top_duplicate_groups (Report.samples report))
        = 10 `min` Duplicates.groups (Report.duplicates report)
      ∧ Forall (λ entry, 2 ≤ DuplicateSample.count entry)
          (Samples.top_duplicate_groups (Report.samples report)).
Proof.
  split; [exact sample_funnels_expose_id|].
  destruct (top_duplicate_groups_largest
              sample_funnels duplicated_offers sample_funnels_expose_id)
    as (report & Hmain & Hlen & Hcount & _).
  exists report. by repeat split.
Defined.

(** ** The report and the order of the rows *)

Lemma funnel_id_values_Permutation funnels funnels' :
  funnels ≡ₚ funnels' → funnel_id_values funnels ≡ₚ funnel_id_values funnels'.
Proof. unfold funnel_id_values. by intros ->. Qed.

Lemma funnel_id_invalid_Permutation funnels funnels' offer :
  funnels ≡ₚ funnels' →
  funnel_id_invalid funnels offer ↔ funnel_id_invalid funnels' offer.
Proof.
  intros Hperm%funnel_id_values_Permutation. unfold funnel_id_invalid.
  destruct (offer !! "funnel_id") as [[s|]|]; [|done..].
  by rewrite Hperm.
Qed.

Lemma offer_funnel_ids_Permutation offers offers' :
  offers ≡ₚ offers' → offer_funnel_ids offers ≡ₚ offer_funnel_ids offers'.
Proof. unfold offer_funnel_ids. by intros ->. Qed.

Lemma funnels_with_no_offer_Permutation funnels funnels' offers offers' :
  funnels ≡ₚ funnels' → offers ≡ₚ offers' →
  funnels_with_no_offer funnels offers ≡ₚ funnels_with_no_offer funnels' offers'.
Proof.
  intros Hf Ho%offer_funnel_ids_Permutation. unfold funnels_with_no_offer.
  rewrite Hf. apply reflexive_eq, list_filter_iff.
  intros funnel. by rewrite Ho.
Qed.

Lemma group_size_Permutation offers offers' k :
  offers ≡ₚ offers' → group_size offers k = group_size offers' k.
Proof. unfold group_size. by intros ->. Qed.

Lemma duplicate_keys_Permutation offers offers' :
  offers ≡ₚ offers' → duplicate_keys offers ≡ₚ duplicate_keys offers'.
Proof.
  intros Hperm. apply NoDup_Permutation.
  - apply NoDup_filter, NoDup_first_occurrences.
  - apply NoDup_filter, NoDup_first_occurrences.
  - intros k. by rewrite !elem_of_duplicate_keys, (group_size_Permutation _ _ _ Hperm).
Qed.

Lemma Counter_Permutation {K} `{EqDecision K} (l l' : list K) :
  l ≡ₚ l' → Counter l ≡ₚ Counter l'.
Proof.
  intros Hperm. apply NoDup_Permutation.
  - apply (NoDup_fmap_1 fst). rewrite keys_Counter. apply NoDup_first_occurrences.
  - apply (NoDup_fmap_1 fst). rewrite keys_Counter. apply NoDup_first_occurrences.
  - intros [k n]. rewrite !elem_of_Counter. unfold occurrences.
    by rewrite Hperm.
Qed.

(** X12. The counts of the report do not depend on the order of the rows:
    when the funnel rows and the offer rows are reordered, [totals],
    [integrity], [duplicates] and [generic_offer_names] are unchanged, and
    [by_origem] and [samples.invalid_funnel_ids] hold the same entries
    (in another order at most). *)
Theorem report_counts_order_independent funnels funnels' offers offers' :
  funnels ≡ₚ funnels' → offers ≡ₚ offers' →
  funnels_expose_id funnels →
  ∃ report report',
    main funnels offers = Some report
    ∧ main funnels' offers' = Some report'
    ∧ Report.totals report' = Report.totals report
    ∧ Report.integrity report' = Report.integrity report
    ∧ Report.duplicates report' = Report.duplicates report
    ∧ Semantics.generic_offer_names (Report.semantics report')
      = Semantics.generic_offer_names (Report.semantics report)
    ∧ Semantics.by_origem (Report.semantics report')
      ≡ₚ Semantics.by_origem (Report.semantics report)
    ∧ Samples.invalid_funnel_ids (Report.samples report')
      ≡ₚ Samples.invalid_funnel_ids (Report.samples report).
Proof.
  intros Hf Ho Hid.
  assert (funnels_expose_id funnels') as Hid'.
  { unfold funnels_expose_id in *. by rewrite <-Hf. }
  destruct (main_success funnels offers Hid) as (top & _ & Hmain).
  destruct (main_success funnels' offers' Hid') as (top' & _ & Hmain').
  eexists. eexists. split; [exact Hmain|]. split; [exact Hmain'|]. simpl.
  assert (filter (funnel_id_invalid funnels') offers'
          ≡ₚ filter (funnel_id_invalid funnels) offers) as Hinv.
  { rewrite <-Ho. apply reflexive_eq, list_filter_iff.
    intros offer. symmetry. by apply funnel_id_invalid_Permutation. }
  repeat split.
  - by rewrite Hf, Ho.
  - unfold missing_project_rows, missing_product_rows, missing_offer_rows,
      missing_rows.
    rewrite Hinv, (funnels_with_no_offer_Permutation _ _ _ _ Hf Ho).
    by rewrite Ho.
  - rewrite (duplicate_keys_Permutation _ _ Ho). f_equal.
    f_equal. apply list_fmap_ext. intros i k _.
    by rewrite (group_size_Permutation _ _ k Ho).
  - unfold generic_offers. by rewrite Ho.
  - apply Counter_Permutation. by rewrite Ho.
  - apply Counter_Permutation. by rewrite Hinv.
Qed.

Lemma report_counts_order_independent_witness :
  sample_funnels ≡ₚ reverse sample_funnels
  ∧ duplicated_offers ≡ₚ reverse duplicated_offers
  ∧ funnels_expose_id sample_funnels
  ∧ ∃ report report',
      main sample_funnels duplicated_offers = Some report
      ∧ main (reverse sample_funnels) (reverse duplicated_offers) = Some report'
      ∧ Report.integrity report' = Report.integrity report
      ∧ Report.duplicates report' = Report.duplicates report.
Proof.
  assert (sample_funnels ≡ₚ reverse sample_funnels) as Hf
    by (symmetry; apply reverse_Permutation).
  assert (duplicated_offers ≡ₚ reverse duplicated_offers) as Ho
    by (symmetry; apply reverse_Permutation).
  split; [exact Hf|]. split; [exact Ho|].
  split; [exact sample_funnels_expose_id|].
  destruct (report_counts_order_independent _ _ _ _ Hf Ho sample_funnels_expose_id)
    as (report & report' & Hmain & Hmain' & _ & Hint & Hdup & _).
  exists report, report'. by repeat split.
Defined.

(** ** Joining offer datasets, and empty datasets *)

Lemma length_filter_impl {A} (P Q : A → Prop)
    `{∀ x, Decision (P x), ∀ x, Decision (Q x)} (l : list A) :
  (∀ x, P x → Q x) → length (filter P l) ≤ length (filter Q l).
Proof.
  intros HPQ. induction l as [|x l IH]; [done|].
  rewrite !filter_cons. specialize (HPQ x).
  destruct (decide (P x)), (decide (Q x)); simpl; lia || tauto.
Qed.

Lemma length_first_occurrences_app {K} `{Countable K} (l1 l2 : list K) :
  length (first_occurrences (l1 ++ l2))
  ≤ length (first_occurrences l1) + length (first_occurrences l2).
Proof.
  rewrite !length_first_occurrences, list_to_set_app_L, size_union_alt.
  assert (size (list_to_set l2 ∖ list_to_set l1 : gset K)
          ≤ size (list_to_set l2 : gset K)); [|lia].
  apply subseteq_size. by intros k [Hk _]%elem_of_difference.
Qed.

(** X14. When two lists of offer rows are joined (same funnels), the
    number of offers, the five integrity counts of the offers and
    [generic_offer_names] are the sums of those of the two lists; the
    funnels without offers can only become fewer, and [extra_rows] is at
    least the sum of the two. *)
Theorem offer_counts_additive funnels offers1 offers2 :
  funnels_expose_id funnels →
  ∃ report1 report2 report,
    main funnels offers1 = Some report1
    ∧ main funnels offers2 = Some report2
    ∧ main funnels (offers1 ++ offers2) = Some report
    ∧ Totals.offers (Report.totals report)
      = Totals.offers (Report.totals report1)
        + Totals.offers (Report.totals report2)
    ∧ Integrity.offers_missing_funnel_id (Report.integrity report)
      = Integrity.offers_missing_funnel_id (Report.integrity report1)
        + Integrity.offers_missing_funnel_id (Report.integrity report2)
    ∧ Integrity.offers_with_invalid_funnel_id (Report.integrity report)
      = Integrity.offers_with_invalid_funnel_id (Report.integrity report1)
        + Integrity.offers_with_invalid_funnel_id (Report.integrity report2)
    ∧ Integrity.offers_missing_project_id (Report.integrity report)
      = Integrity.offers_missing_project_id (Report.integrity report1)
        + Integrity.offers_missing_project_id (Report.integrity report2)
    ∧ Integrity.offers_missing_nome_produto (Report.integrity report)
      = Integrity.offers_missing_nome_produto (Report.integrity report1)
        + Integrity.offers_missing_nome_produto (Report.integrity report2)
    ∧ Integrity.offers_missing_nome_oferta (Report.integrity report)
      = Integrity.offers_missing_nome_oferta (Report.integrity report1)
        + Integrity.offers_missing_nome_oferta (Report.integrity report2)
    ∧ Semantics.generic_offer_names (Report.semantics report)
      = Semantics.generic_offer_names (Report.semantics report1)
        + Semantics.generic_offer_names (Report.semantics report2)
    ∧ Integrity.funnels_without_offers (Report.integrity report)
      ≤ Integrity.funnels_without_offers (Report.integrity report1)
    ∧ Integrity.funnels_without_offers (Report.integrity report)
      ≤ Integrity.funnels_without_offers (Report.integrity report2)
    ∧ Duplicates.extra_rows (Report.duplicates report1)
      + Duplicates.extra_rows (Report.duplicates report2)
      ≤ Duplicates.extra_rows (Report.duplicates report).
Proof.
  intros Hid.
  destruct (main_success funnels offers1 Hid) as (top1 & _ & Hmain1).
  destruct (main_success funnels offers2 Hid) as (top2 & _ & Hmain2).
  destruct (main_success funnels (offers1 ++ offers2) Hid) as (top & _ & Hmain).
  eexists. eexists. eexists.
  split; [exact Hmain1|]. split; [exact Hmain2|]. split; [exact Hmain|]. simpl.
  unfold missing_project_rows, missing_product_rows, missing_offer_rows,
    missing_rows, generic_offers.
  rewrite !filter_app, !length_app.
  assert (∀ v, v ∈ offer_funnel_ids offers1 ∨ v ∈ offer_funnel_ids offers2 →
               v ∈ offer_funnel_ids (offers1 ++ offers2)) as Hids.
  { intros v. unfold offer_funnel_ids.
    rewrite filter_app, fmap_app, elem_of_app. tauto. }
  repeat split; try done.
  - apply length_filter_impl. intros funnel Hno Hin. apply Hno, Hids. by left.
  - apply length_filter_impl. intros funnel Hno Hin. apply Hno, Hids. by right.
  - pose proof (extra_rows_plus_keys offers1) as H1.
    pose proof (extra_rows_plus_keys offers2) as H2.
    pose proof (extra_rows_plus_keys (offers1 ++ offers2)) as H12.
    pose proof (length_first_occurrences_app
                  (dup_key <$> offers1) (dup_key <$> offers2)) as Hkeys.
    rewrite fmap_app, length_app in H12. lia.
Qed.

Lemma offer_counts_additive_witness :
  funnels_expose_id sample_funnels
  ∧ ∃ report1 report2 report,
      main sample_funnels sample_offers = Some report1
      ∧ main sample_funnels duplicated_offers = Some report2
      ∧ main sample_funnels (sample_offers ++ duplicated_offers) = Some report
      ∧ Totals.offers (Report.totals report)
        = Totals.offers (Report.totals report1)
          + Totals.offers (Report.totals report2)
      ∧ Duplicates.extra_rows (Report.duplicates report1)
        + Duplicates.extra_rows (Report.duplicates report2)
        ≤ Duplicates.extra_rows (Report.duplicates report).
Proof.
  split; [exact sample_funnels_expose_id|].
  destruct (offer_counts_additive
              sample_funnels sample_offers duplicated_offers
              sample_funnels_expose_id)
    as (report1 & report2 & report & Hmain1 & Hmain2 & Hmain & Htotal & Hrest).
  exists report1, report2, report.
  split; [exact Hmain1|]. split; [exact Hmain2|]. split; [exact Hmain|].
  split; [exact Htotal|]. tauto.
Defined.

(** X15. Without offer rows every funnel is without offers, every count
    about offers is 0 and the mappings and the list of duplicate groups
    are empty. *)
Theorem no_offers_report funnels :
  funnels_expose_id funnels →
  ∃ report,
    main funnels [] = Some report
    ∧ Integrity.funnels_without_offers (Report.integrity report)
      = Totals.funnels (Report.totals report)
    ∧ Totals.funnels (Report.totals report) = length funnels
    ∧ Totals.offers (Report.totals report) = 0
    ∧ Integrity.offers_missing_funnel_id (Report.integrity report) = 0
    ∧ Integrity.offers_with_invalid_funnel_id (Report.integrity report) = 0
    ∧ Integrity.offers_missing_project_id (Report.integrity report) = 0
    ∧ Integrity.offers_missing_nome_produto (Report.integrity report) = 0
    ∧ Integrity.offers_missing_nome_oferta (Report.integrity report) = 0
    ∧ Report.duplicates report
      = {| Duplicates.groups := 0; Duplicates.extra_rows := 0 |}
    ∧ Report.semantics report
      = {| Semantics.generic_offer_names := 0; Semantics.by_origem := [] |}
    ∧ Samples.invalid_funnel_ids (Report.samples report) = []
    ∧ Samples.top_duplicate_groups (Report.samples report) = [].
Proof.
  intros Hid. destruct (main_success funnels [] Hid) as (top & Htop & Hmain).
  eexists. split; [exact Hmain|]. simpl.
  apply Forall2_nil_inv_l in Htop as ->.
  repeat split. f_equal. unfold funnels_with_no_offer.
  clear. induction funnels as [|funnel funnels IH]; [done|].
  rewrite filter_cons_True by apply not_elem_of_nil. by f_equal.
Qed.

Lemma no_offers_report_witness :
  funnels_expose_id sample_funnels
  ∧ ∃ report,
      main sample_funnels [] = Some report
      ∧ Integrity.funnels_without_offers (Report.integrity report)
        = Totals.funnels (Report.totals report).
Proof.
  split; [exact sample_funnels_expose_id|].
  destruct (no_offers_report sample_funnels sample_funnels_expose_id)
    as (report & Hmain & Hall & _).
  exists report. by split.
Defined.

(** X16. Without funnel rows [main] still returns a report: no funnel is
    without offers, and every offer row that has a [funnel_id] counts as
    having an invalid one. *)
Theorem no_funnels_report offers :
  ∃ report,
    main [] offers = Some report
    ∧ Totals.funnels (Report.totals report) = 0
    ∧ Integrity.funnels_without_offers (Report.integrity report) = 0
    ∧ Samples.funnels_without_offers (Report.samples report) = []
    ∧ Integrity.offers_with_invalid_funnel_id (Report.integrity report)
      = length (filter (λ offer, ¬ funnel_id_missing offer) offers)
    ∧ Integrity.offers_missing_funnel_id (Report.integrity report)
      + Integrity.offers_with_invalid_funnel_id (Report.integrity report)
      = Totals.offers (Report.totals report).
Proof.
  assert (funnels_expose_id []) as Hid by constructor.
  destruct (main_success [] offers Hid) as (top & _ & Hmain).
  eexists. split; [exact Hmain|]. simpl.
  assert (filter (funnel_id_invalid []) offers
          = filter (λ offer, ¬ funnel_id_missing offer) offers) as ->.
  { apply list_filter_iff. intros offer.
    destruct (funnel_id_trichotomy [] offer) as [?|[?|(_ & _ & Hvalid)]];
      [tauto..|].
    unfold funnel_id_valid in Hvalid.
    destruct (offer !! "funnel_id") as [[s|]|]; try done.
    destruct Hvalid as [_ []%elem_of_nil]. }
  repeat split. apply length_filter_complement.
Qed.


(** ** Beyond Latin-1 *)

Lemma wide_isspace_ascii c : Wide.isspace (N_of_ascii c) = Str.isspace c.
Proof. by destruct c as [[] [] [] [] [] [] [] []]. Qed.

Lemma wide_lower_code_point_ascii after_cased rest c :
  Wide.lower_code_point after_cased rest (N_of_ascii c)
  = Some [N_of_ascii (Str.lower_char c)].
Proof. by destruct c as [[] [] [] [] [] [] [] []]. Qed.

Lemma wide_lower_from_ascii after_cased (s : list ascii) :
  Wide.lower_from after_cased (N_of_ascii <$> s)
  = Some (N_of_ascii <$> Str.lower s).
Proof.
  revert after_cased. induction s as [|c t IH]; intros after_cased; [done|].
  csimpl. by rewrite wide_lower_code_point_ascii, IH.
Qed.

Lemma wide_lstrip_ascii (s : list ascii) :
  Wide.lstrip (N_of_ascii <$> s) = N_of_ascii <$> Str.lstrip s.
Proof.
  induction s as [|c t IH]; [done|]. csimpl.
  rewrite wide_isspace_ascii. by destruct (Str.isspace c).
Qed.

Lemma wide_rstrip_ascii (s : list ascii) :
  Wide.rstrip (N_of_ascii <$> s) = N_of_ascii <$> Str.rstrip s.
Proof.
  induction s as [|c t IH]; [done|]. csimpl.
  rewrite IH, wide_isspace_ascii.
  destruct (Str.rstrip t); csimpl; [by destruct (Str.isspace c)|done].
Qed.

Lemma wide_sub_spaces_ascii in_run (s : list ascii) :
  Wide.sub_spaces_from in_run (N_of_ascii <$> s)
  = N_of_ascii <$> Str.sub_spaces_from in_run s.
Proof.
  revert in_run. induction s as [|c t IH]; intros in_run; [done|]. csimpl.
  rewrite wide_isspace_ascii, !IH.
  by destruct (Str.isspace c), in_run.
Qed.

(** On the strings of code points below 256 the two models of
    [normalize] agree. *)
Lemma wide_normalize_code_points (v : value) :
  Wide.normalize (code_points <$> v) = Some (code_points (normalize v)).
Proof.
  assert (default [] (code_points <$> v)
          = N_of_ascii <$> list_ascii_of_string (or_empty v)) as Hv
    by by destruct v.
  unfold Wide.normalize, Wide.lower, Wide.strip, Wide.sub_spaces.
  rewrite Hv. unfold code_points.
  rewrite wide_lstrip_ascii, wide_rstrip_ascii, wide_lower_from_ascii. csimpl.
  rewrite wide_sub_spaces_ascii. unfold normalize, normalize_chars.
  by rewrite list_ascii_of_string_of_list_ascii.
Qed.

Lemma code_points_surjective (x : list N) :
  Forall (λ c, (c < 256)%N) x →
  x = code_points (string_of_list_ascii (ascii_of_N <$> x)).
Proof.
  unfold code_points. rewrite list_ascii_of_string_of_list_ascii.
  induction 1 as [|c x Hc _ IH]; [done|]. csimpl.
  by rewrite N_ascii_embedding, <-IH.
Qed.

Lemma code_points_length s : length (code_points s) = String.length s.
Proof.
  unfold code_points. rewrite length_fmap.
  by rewrite <-(string_of_list_ascii_of_string s) at 2;
    rewrite string_of_list_ascii_length.
Qed.


(** Beyond Latin-1 [normalize] can lengthen a string: the dotted capital
    I (U+0130) becomes "i" followed by the combining dot above. *)
Example normalize_lengthens_dotted_capital_i :
  Wide.normalize (Some [0x130%N]) = Some [0x69; 0x307]%N.
Proof. by vm_compute. Qed.

(** X3. On a string of code points below 256 [normalize] returns a string
    of code points below 256 that is not longer than its argument. *)
Theorem normalize_length_latin1 (x : list N) :
  Forall (λ c, (c < 256)%N) x →
  ∃ n,
    Wide.normalize (Some x) = Some n
    ∧ Forall (λ c, (c < 256)%N) n
    ∧ length n ≤ length x.
Proof.
  intros Hx.
  assert (∃ s, x = code_points s) as [s ->]
    by eauto using code_points_surjective.
  exists (code_points (normalize (Some s))).
  split; [exact (wide_normalize_code_points (Some s))|]. split.
  - unfold code_points. apply Forall_fmap, Forall_forall.
    intros c _. apply N_ascii_bounded.
  - rewrite !code_points_length. apply (normalize_length (Some s)).
Qed.

Lemma normalize_length_latin1_witness :
  Forall (λ c, (c < 256)%N) [0x20; 0xC9; 0x20; 0x20; 0x41]%N
  ∧ ∃ n,
      Wide.normalize (Some [0x20; 0xC9; 0x20; 0x20; 0x41]%N) = Some n
      ∧ Forall (λ c, (c < 256)%N) n
      ∧ length n ≤ length [0x20; 0xC9; 0x20; 0x20; 0x41]%N.
Proof.
  assert (Forall (λ c, (c < 256)%N) [0x20; 0xC9; 0x20; 0x20; 0x41]%N) as Hx
    by (repeat constructor).
  split; [exact Hx|]. exact (normalize_length_latin1 _ Hx).
Defined.
